(** * Three-phase viscoelastic property model (three-phase-viscoelastic.h)

    A shallow embedding of the two Basilisk events of the header,
    [tracer_advection] (fraction repair followed by the optional smearing
    of the volume fractions) and [properties] (density, viscosity, elastic
    modulus and relaxation time), together with the [rho] and [mu] macros.

    Conventions of the embedding:
    - in the events a C [double] is an exact rational ([Q]); the literals
      [1e-2], [16.] ... are the corresponding rationals.  This is the model
      for the statements on comparisons, copies, frames and on the formulas
      the events evaluate; an equation between computed values ([==]) is an
      equation of exact arithmetic, and values that are merely copied are
      related by Leibniz equality;
    - a Basilisk [scalar] is a name in a field store, [s[]] is the lookup at
      the current cell and [s[i,j,k]] the lookup at a shifted cell;
    - [foreach()] is a left fold of the loop body over the cells of the
      grid, [foreach_face()] over its faces;
    - the build-time switches [FILTERED], [TREE] and [dimension] are fields
      of a [build] record;
    - where a statement depends on the rounding of the arithmetic (does a
      stencil return a constant field unchanged, do the phase fractions
      add up to 1), the expression of the source is evaluated on binary64
      numbers ([float]): the definitions with the suffix [_b64] are the
      stencils and the phase fractions with every operation rounded as the
      machine rounds it. *)

From Stdlib Require Import QArith ZArith List Bool Lia.
From Stdlib Require Import Qfield Lqa.
From Stdlib Require Import PrimFloat FloatOps SpecFloat Uint63.
Import ListNotations.

Open Scope Q_scope.

(** ** Numbers *)

Definition double : Type := Q.

(** [x < y] and [x > y] as C evaluates them, to a truth value. *)
Definition Qltb (x y : double) : bool :=
  match x ?= y with Lt => true | _ => false end.

Definition Qgtb (x y : double) : bool := Qltb y x.

(** Modelled from the spec: [clamp] is a macro of the Basilisk headers,
    which are not among the sources.  The spec writes [clamp(x,0,1)] for the
    defensive clamping of a fraction into [0,1]: a value below the lower
    bound becomes the lower bound, a value above the upper bound becomes the
    upper bound, any other value is kept. *)
Definition clamp (x a b : double) : double :=
  if Qltb x a then a else if Qgtb x b then b else x.

(** ** Grid, cells and fields *)

Record cell : Type := Cell { cx : Z; cy : Z; cz : Z }.

Definition cell_eqb (c d : cell) : bool :=
  ((cx c =? cx d) && (cy c =? cy d) && (cz c =? cz d))%Z.

(** The cell addressed by [s[i,j,k]] when the current cell is [c]. *)
Definition shift (c : cell) (i j k : Z) : cell :=
  Cell (cx c + i) (cy c + j) (cz c + k).

Inductive axis : Type := ax_x | ax_y | ax_z.

Definition axis_eqb (a a' : axis) : bool :=
  match a, a' with
  | ax_x, ax_x | ax_y, ax_y | ax_z, ax_z => true
  | _, _ => false
  end.

(** The left neighbour across a face: [s[-1]] in the body of
    [foreach_face()], rotated with the face's direction. *)
Definition back (a : axis) (c : cell) : cell :=
  match a with
  | ax_x => shift c (-1) 0 0
  | ax_y => shift c 0 (-1) 0
  | ax_z => shift c 0 0 (-1)
  end.

Definition field : Type := cell -> double.

(** The scalar fields the header declares.  [sf1_] and [sf2_] are the
    fields [sf1[]] and [sf2[]] allocated under [FILTERED]. *)
Inductive scalar : Type :=
  | f1 | f2 | sf1_ | sf2_ | rhov | Gpd | lambdapd.

Definition scalar_eqb (a b : scalar) : bool :=
  match a, b with
  | f1, f1 | f2, f2 | sf1_, sf1_ | sf2_, sf2_
  | rhov, rhov | Gpd, Gpd | lambdapd, lambdapd => true
  | _, _ => false
  end.

Inductive refine_rule : Type :=
  | refine_default | refine_bilinear | fraction_refine.

(** Build-time switches. *)
Record build : Type := Build {
  FILTERED : bool;
  TREE : bool;
  dimension : Z
}.

(** What the grid provides: the cells and faces the iterators visit and the
    metric factors [cm[]] and [fm.x[]]. *)
Record grid : Type := Grid {
  cells : list cell;
  faces : list (axis * cell);
  cm : field;
  fm : axis -> field
}.

(** The material constants, with the header's initial values. *)
Record params : Type := Params {
  rho1 : double; mu1 : double;
  rho2 : double; mu2 : double;
  rho3 : double; mu3 : double;
  G1 : double; G2 : double; G3 : double;
  lambda1 : double; lambda2 : double; lambda3 : double;
  TOLelastic : double
}.

Definition header_params : params :=
  {| rho1 := 1; mu1 := 0; rho2 := 1; mu2 := 0; rho3 := 1; mu3 := 0;
     G1 := 0; G2 := 0; G3 := 0;
     lambda1 := 0; lambda2 := 0; lambda3 := 0;
     TOLelastic := 1e-1 |}.

(** The mutable fields.  [alphav] holds a quotient: [None] stands for the
    undefined value of a division by zero. *)
Record state : Type := State {
  val : scalar -> field;
  alphav : axis -> cell -> option double;
  muv : axis -> field;
  prolongation : scalar -> refine_rule;
  dirty : scalar -> bool
}.

(** [s[] = v] at cell [c]; likewise [alphav.x[] = v] and [muv.x[] = v] at
    the face of [c] in direction [a]. *)
Definition set_val (st : state) (s : scalar) (c : cell) (v : double) : state :=
  {| val := fun s' c' =>
              if scalar_eqb s s' && cell_eqb c c' then v else val st s' c';
     alphav := alphav st;
     muv := muv st;
     prolongation := prolongation st;
     dirty := dirty st |}.

Definition set_alphav (st : state) (a : axis) (c : cell) (v : option double)
  : state :=
  {| val := val st;
     alphav := fun a' c' =>
                 if axis_eqb a a' && cell_eqb c c' then v
                 else alphav st a' c';
     muv := muv st;
     prolongation := prolongation st;
     dirty := dirty st |}.

Definition set_muv (st : state) (a : axis) (c : cell) (v : double) : state :=
  {| val := val st;
     alphav := alphav st;
     muv := fun a' c' =>
              if axis_eqb a a' && cell_eqb c c' then v else muv st a' c';
     prolongation := prolongation st;
     dirty := dirty st |}.

(** [s.prolongation = r; s.dirty = true;] *)
Definition mark (r : refine_rule) (st : state) (s : scalar) : state :=
  {| val := val st;
     alphav := alphav st;
     muv := muv st;
     prolongation := fun s' => if scalar_eqb s s' then r else prolongation st s';
     dirty := fun s' => if scalar_eqb s s' then true else dirty st s' |}.

Definition foreach (g : grid) (body : cell -> state -> state) (st : state)
  : state :=
  fold_left (fun acc c => body c acc) (cells g) st.

Definition foreach_face (g : grid) (body : axis -> cell -> state -> state)
  (st : state) : state :=
  fold_left (fun acc ac => body (fst ac) (snd ac) acc) (faces g) st.

(** ** The [rho] and [mu] macros *)

(** The three phase fractions that the macros and [properties] clamp. *)
Definition phaseA (a b : double) : double := a * (1 - b).
Definition phaseB (a b : double) : double := a * b.
Definition phaseC (a : double) : double := 1 - a.

Definition rho (p : params) (a b : double) : double :=
  clamp (phaseA a b) 0 1 * rho1 p + clamp (phaseB a b) 0 1 * rho2 p
  + clamp (phaseC a) 0 1 * rho3 p.

Definition mu (p : params) (a b : double) : double :=
  clamp (phaseA a b) 0 1 * mu1 p + clamp (phaseB a b) 0 1 * mu2 p
  + clamp (phaseC a) 0 1 * mu3 p.

(** [sf1] and [sf2]: fields of their own under [FILTERED], otherwise the
    macros [#define sf1 f1] and [#define sf2 f2]. *)
Definition sf1 (b : build) : scalar := if FILTERED b then sf1_ else f1.
Definition sf2 (b : build) : scalar := if FILTERED b then sf2_ else f2.

Definition interfaces : list scalar := [f1; f2].
Definition smearInterfaces (b : build) : list scalar := [sf1 b; sf2 b].

(** ** Event [tracer_advection] *)

(** The test [(f2[] > 1e-2) && (f1[] < 1.-1e-2)] at the cell [c]. *)
Definition needs_repair (st : state) (c : cell) : bool :=
  Qgtb (val st f2 c) 1e-2 && Qltb (val st f1 c) (1 - 1e-2).

(** Body of the first [foreach()]: the repair of [f1]. *)
Definition correct_cell (c : cell) (st : state) : state :=
  if needs_repair st c then set_val st f1 c (val st f2 c) else st.

(** [if (i > 1) { foreach() ... }] *)
Definition corrector (g : grid) (i : Z) (st : state) : state :=
  if (i >? 1)%Z then foreach g correct_cell st else st.

(** The two smearing stencils, on the field [f] around the cell [c]. *)
Definition smear2 (f : field) (c : cell) : double :=
  (4 * f c
   + 2 * (f (shift c 0 1 0) + f (shift c 0 (-1) 0)
          + f (shift c 1 0 0) + f (shift c (-1) 0 0))
   + f (shift c (-1) (-1) 0) + f (shift c 1 (-1) 0)
   + f (shift c 1 1 0) + f (shift c (-1) 1 0)) / 16.

Definition smear3 (f : field) (c : cell) : double :=
  (8 * f c
   + 4 * (f (shift c (-1) 0 0) + f (shift c 1 0 0)
          + f (shift c 0 1 0) + f (shift c 0 (-1) 0)
          + f (shift c 0 0 1) + f (shift c 0 0 (-1)))
   + 2 * (f (shift c (-1) 1 0) + f (shift c (-1) 0 1)
          + f (shift c (-1) 0 (-1)) + f (shift c (-1) (-1) 0)
          + f (shift c 0 1 1) + f (shift c 0 1 (-1))
          + f (shift c 0 (-1) 1) + f (shift c 0 (-1) (-1))
          + f (shift c 1 1 0) + f (shift c 1 0 1)
          + f (shift c 1 (-1) 0) + f (shift c 1 0 (-1)))
   + f (shift c 1 (-1) 1) + f (shift c (-1) 1 1)
   + f (shift c (-1) 1 (-1)) + f (shift c 1 1 1)
   + f (shift c 1 1 (-1)) + f (shift c (-1) (-1) (-1))
   + f (shift c 1 (-1) (-1)) + f (shift c (-1) (-1) 1)) / 64.

(** [#if dimension <= 2 ... #else ... #endif] *)
Definition smear (b : build) (f : field) (c : cell) : double :=
  if (dimension b <=? 2)%Z then smear2 f c else smear3 f c.

(** Body of the smearing [foreach()]: [sf[] = ...f...]. *)
Definition smear_cell (b : build) (sf f : scalar) (c : cell) (st : state)
  : state :=
  set_val st sf c (smear b (val st f) c).

(** [for (scalar f in interfaces)], with its counter. *)
Fixpoint smear_inner (b : build) (g : grid) (sf : scalar)
  (counter1 counter2 : Z) (fs : list scalar) (st : state) : state :=
  match fs with
  | [] => st
  | f :: fs' =>
      let counter2 := (counter2 + 1)%Z in
      let st' := if (counter1 =? counter2)%Z
                 then foreach g (smear_cell b sf f) st
                 else st in
      smear_inner b g sf counter1 counter2 fs' st'
  end.

(** [for (scalar sf in smearInterfaces)], with its counter. *)
Fixpoint smear_outer (b : build) (g : grid) (counter1 : Z)
  (sfs : list scalar) (st : state) : state :=
  match sfs with
  | [] => st
  | sf :: sfs' =>
      let counter1 := (counter1 + 1)%Z in
      smear_outer b g counter1 sfs'
        (smear_inner b g sf counter1 0 interfaces st)
  end.

(** The [#ifdef FILTERED] block. *)
Definition smoothing (b : build) (g : grid) (st : state) : state :=
  if FILTERED b then smear_outer b g 0 (smearInterfaces b) st else st.

(** The [#if TREE] blocks: every smeared interface gets the rule [r] and is
    flagged dirty. *)
Definition mark_interfaces (b : build) (r : refine_rule) (st : state)
  : state :=
  if TREE b then fold_left (mark r) (smearInterfaces b) st else st.

Definition tracer_advection (b : build) (g : grid) (i : Z) (st : state)
  : state :=
  mark_interfaces b refine_bilinear (smoothing b g (corrector g i st)).

(** ** Event [properties] *)

(** [(s[] + s[-1])/2.]: the average of [s] over the two cells of a face. *)
Definition face_average (st : state) (s : scalar) (a : axis) (c : cell)
  : double :=
  (val st s c + val st s (back a c)) / 2.

(** Body of [foreach_face()]. *)
Definition face_cell (b : build) (g : grid) (p : params)
  (a : axis) (c : cell) (st : state) : state :=
  let ff1 := face_average st (sf1 b) a c in
  let ff2 := face_average st (sf2 b) a c in
  let st1 := set_alphav st a c
               (if Qeq_bool (rho p ff1 ff2) 0 then None
                else Some (fm g a c / rho p ff1 ff2)) in
  set_muv st1 a c (fm g a c * mu p ff1 ff2).

(** One gated accumulation, for the fraction expression [w]:
    [if (w > TOLelastic) { Gpd[] += G*w; lambdapd[] += lambda*w; }] *)
Definition gate (p : params) (G lam : double) (w : state -> double)
  (c : cell) (st : state) : state :=
  if Qgtb (w st) (TOLelastic p) then
    let st1 := set_val st Gpd c (val st Gpd c + G * w st) in
    set_val st1 lambdapd c (val st1 lambdapd c + lam * w st1)
  else st.

(** The clamped fractions as [properties] reads them at the cell [c]. *)
Definition wA (b : build) (c : cell) (st : state) : double :=
  clamp (phaseA (val st (sf1 b) c) (val st (sf2 b) c)) 0 1.
Definition wB (b : build) (c : cell) (st : state) : double :=
  clamp (phaseB (val st (sf1 b) c) (val st (sf2 b) c)) 0 1.
Definition wC (b : build) (c : cell) (st : state) : double :=
  clamp (phaseC (val st (sf1 b) c)) 0 1.

Definition property_cell (b : build) (g : grid) (p : params)
  (c : cell) (st : state) : state :=
  let st1 := set_val st rhov c
               (cm g c * rho p (val st (sf1 b) c) (val st (sf2 b) c)) in
  let st2 := set_val st1 Gpd c 0 in
  let st3 := set_val st2 lambdapd c 0 in
  let st4 := gate p (G1 p) (lambda1 p) (wA b c) c st3 in
  let st5 := gate p (G2 p) (lambda2 p) (wB b c) c st4 in
  gate p (G3 p) (lambda3 p) (wC b c) c st5.

Definition properties (b : build) (g : grid) (p : params) (st : state)
  : state :=
  mark_interfaces b fraction_refine
    (foreach g (property_cell b g p) (foreach_face g (face_cell b g p) st)).

(** ** The stencils and the phase fractions in binary64 *)






(** The rational number that a finite binary64 number stands for; there is
    none for an infinity or a NaN. *)
Definition exact (x : float) : option Q :=
  match Prim2SF x with
  | S754_zero _ => Some 0
  | S754_finite s m e =>
      let q := (Zpos m # 1) * Qpower 2 e in
      Some (if s then - q else q)
  | _ => None
  end.








(** ** Vocabulary of the statements *)

(** Membership in the list of cells a loop visits, as a truth value. *)
Definition visited (l : list cell) (c : cell) : bool :=
  existsb (cell_eqb c) l.

(** Two states agree at a cell when every scalar has the same value
    there. *)
Definition agree_at (c : cell) (st st' : state) : Prop :=
  forall s, val st s c = val st' s c.

(** Two states have the same face fields and the same refinement marks. *)
Definition same_rest (st st' : state) : Prop :=
  alphav st = alphav st' /\ muv st = muv st'
  /\ prolongation st = prolongation st' /\ dirty st = dirty st'.

(** The stencil neighbourhood of [c]: the cells at most one step away in
    every direction. *)
Definition around (c d : cell) : Prop :=
  (Z.abs (cx d - cx c) <= 1 /\ Z.abs (cy d - cy c) <= 1
   /\ Z.abs (cz d - cz c) <= 1)%Z.

(** What the three gated accumulations of [properties] leave in a field
    that starts at zero: [K1], [K2], [K3] are the constants of the three
    phases and [wa], [wb], [wc] their clamped fractions. *)
Definition accumulate (p : params) (K1 K2 K3 wa wb wc : double) : double :=
  let a1 := if Qgtb wa (TOLelastic p) then 0 + K1 * wa else 0 in
  let a2 := if Qgtb wb (TOLelastic p) then a1 + K2 * wb else a1 in
  if Qgtb wc (TOLelastic p) then a2 + K3 * wc else a2.

(** What one phase contributes to a gated field: its constant times its
    fraction when the fraction exceeds the threshold, nothing otherwise. *)
Definition share (p : params) (K w : double) : double :=
  if Qgtb w (TOLelastic p) then K * w else 0.

(** The values [properties] computes for the cell [c] of the state [st]. *)
Definition cell_values (b : build) (g : grid) (p : params) (c : cell)
  (st : state) (s : scalar) : double :=
  match s with
  | rhov => cm g c * rho p (val st (sf1 b) c) (val st (sf2 b) c)
  | Gpd => accumulate p (G1 p) (G2 p) (G3 p)
             (wA b c st) (wB b c st) (wC b c st)
  | lambdapd => accumulate p (lambda1 p) (lambda2 p) (lambda3 p)
                  (wA b c st) (wB b c st) (wC b c st)
  | _ => val st s c
  end.

(** The spec's wording of the default mixing law: the arithmetic average of
    the constants [k1], [k2], [k3] of the three phases, weighted by the
    phase fractions of [(a, b)], each clamped to [0,1] on its own. *)
Definition arithmetic_average (k1 k2 k3 a b : double) : double :=
  clamp (a * (1 - b)) 0 1 * k1 + clamp (a * b) 0 1 * k2
  + clamp (1 - a) 0 1 * k3.

(** Membership in the list of faces a loop visits, as a truth value. *)
Definition face_visited (l : list (axis * cell)) (a : axis) (c : cell)
  : bool :=
  existsb (fun ac => axis_eqb a (fst ac) && cell_eqb c (snd ac)) l.

(** Case analysis on the three threshold tests, taken on the fractions of
    the state [st] in the order in which the cell pass performs them. *)
Ltac gate_cases st c p :=
  repeat match goal with
    | |- context [Qgtb (clamp (?ph (val st ?x c) (val st ?y c)) 0 1)
                    (TOLelastic p)] =>
        destruct (Qgtb (clamp (ph (val st x c) (val st y c)) 0 1)
                    (TOLelastic p));
        cbn [val set_val scalar_eqb andb]
    | |- context [Qgtb (clamp (phaseC (val st ?x c)) 0 1) (TOLelastic p)] =>
        destruct (Qgtb (clamp (phaseC (val st x c)) 0 1) (TOLelastic p));
        cbn [val set_val scalar_eqb andb]
    end.

(** ** Small concrete inputs *)

Definition origin : cell := Cell 0 0 0.

(** A grid of one cell, with its two faces and unit metric factors. *)
Definition unit_grid : grid :=
  {| cells := [origin];
     faces := [(ax_x, origin); (ax_y, origin)];
     cm := fun _ => 1;
     fm := fun _ _ => 1 |}.

(** The state in which [f1] is [a] and [f2] is [b] everywhere, and every
    other field is still zero. *)
Definition uniform (a b : double) : state :=
  {| val := fun s _ => match s with f1 => a | f2 => b | _ => 0 end;
     alphav := fun _ _ => None;
     muv := fun _ _ => 0;
     prolongation := fun _ => refine_default;
     dirty := fun _ => false |}.

(** The header's constants, with an elastic phase C. *)
Definition elastic_C : params :=
  {| rho1 := 1; mu1 := 0; rho2 := 1; mu2 := 0; rho3 := 1; mu3 := 0;
     G1 := 0; G2 := 0; G3 := 1;
     lambda1 := 0; lambda2 := 0; lambda3 := 1;
     TOLelastic := 1e-1 |}.

Definition plain_2d : build :=
  {| FILTERED := false; TREE := false; dimension := 2 |}.
Definition filtered_2d : build :=
  {| FILTERED := true; TREE := false; dimension := 2 |}.

(** ** Vocabulary of the further properties *)

(** Two grids whose loops visit the same cells and the same faces, in
    whatever order and however often, with the same metric factors. *)
Definition same_cells (g g' : grid) : Prop :=
  forall c, In c (cells g) <-> In c (cells g').

Definition same_faces (g g' : grid) : Prop :=
  forall a c, In (a, c) (faces g) <-> In (a, c) (faces g').

Definition same_metric (g g' : grid) : Prop :=
  (forall c, cm g c = cm g' c) /\ (forall a c, fm g a c = fm g' a c).

(** The sum of the three clamped weights of the mixing laws. *)
Definition weight_sum (x y : double) : double :=
  clamp (phaseA x y) 0 1 + clamp (phaseB x y) 0 1 + clamp (phaseC x) 0 1.

(** The elastic sum without the threshold tests. *)
Definition ungated (K1 K2 K3 wa wb wc : double) : double :=
  K1 * wa + K2 * wb + K3 * wc.

(** The unit grid with its cell and faces listed twice and a second cell. *)
Definition shuffled_grid : grid :=
  {| cells := [Cell 1 0 0; origin; Cell 1 0 0];
     faces := [(ax_y, origin); (ax_x, origin); (ax_y, origin)];
     cm := fun _ => 1;
     fm := fun _ _ => 1 |}.

Definition two_cell_grid : grid :=
  {| cells := [origin; Cell 1 0 0];
     faces := [(ax_x, origin); (ax_y, origin)];
     cm := fun _ => 1;
     fm := fun _ _ => 1 |}.

Definition tree_2d : build :=
  {| FILTERED := false; TREE := true; dimension := 2 |}.
Definition filtered_tree_3d : build :=
  {| FILTERED := true; TREE := true; dimension := 3 |}.

(** Three elastic phases behind a threshold that no fraction exceeds. *)
Definition closed_threshold : params :=
  {| rho1 := 1; mu1 := 0; rho2 := 1; mu2 := 0; rho3 := 1; mu3 := 0;
     G1 := 1; G2 := 2; G3 := 3;
     lambda1 := 1; lambda2 := 2; lambda3 := 3;
     TOLelastic := 1 |}.

(** Constants of three distinct fluids. *)
Definition three_fluids : params :=
  {| rho1 := 1; mu1 := 0.1; rho2 := 2; mu2 := 0.2; rho3 := 0.5; mu3 := 0.05;
     G1 := 1; G2 := 2; G3 := 3;
     lambda1 := 1; lambda2 := 2; lambda3 := 3;
     TOLelastic := 1e-1 |}.

(** * Properties *)

(** ** Comparisons, cells and stores *)

Lemma Qltb_lt (x y : double) : Qltb x y = true <-> x < y.
Proof.
  unfold Qltb. rewrite Qlt_alt.
  destruct (x ?= y); split; intro H; try reflexivity; discriminate H.
Qed.

Lemma Qltb_ge (x y : double) : Qltb x y = false <-> y <= x.
Proof.
  split; intro H.
  - apply Qnot_lt_le. intro L. apply Qltb_lt in L. congruence.
  - destruct (Qltb x y) eqn:E; [| reflexivity].
    apply Qltb_lt in E. exfalso. exact (Qlt_not_le _ _ E H).
Qed.

#[global] Instance Qltb_proper : Proper (Qeq ==> Qeq ==> eq) Qltb.
Proof.
  intros x x' Hx y y' Hy. unfold Qltb. now rewrite Hx, Hy.
Qed.

#[global] Instance Qgtb_proper : Proper (Qeq ==> Qeq ==> eq) Qgtb.
Proof.
  intros x x' Hx y y' Hy. unfold Qgtb. now rewrite Hx, Hy.
Qed.

#[global] Instance clamp_proper : Proper (Qeq ==> Qeq ==> Qeq ==> Qeq) clamp.
Proof.
  intros x x' Hx a a' Ha b b' Hb. unfold clamp.
  rewrite (Qltb_proper x x' Hx a a' Ha), (Qgtb_proper x x' Hx b b' Hb).
  destruct (Qltb x' a'); [exact Ha |].
  destruct (Qgtb x' b'); [exact Hb | exact Hx].
Qed.

Lemma cell_eqb_eq (c d : cell) : cell_eqb c d = true <-> c = d.
Proof.
  unfold cell_eqb. rewrite !andb_true_iff, !Z.eqb_eq.
  destruct c, d; simpl. split.
  - intros [[-> ->] ->]. reflexivity.
  - intros [= -> -> ->]. auto.
Qed.

Lemma cell_eqb_refl (c : cell) : cell_eqb c c = true.
Proof. now apply cell_eqb_eq. Qed.

Lemma cell_eqb_neq (c d : cell) : cell_eqb c d = false <-> c <> d.
Proof.
  rewrite <- cell_eqb_eq. destruct (cell_eqb c d); intuition congruence.
Qed.

Lemma cell_eq_dec (c d : cell) : {c = d} + {c <> d}.
Proof.
  destruct (cell_eqb c d) eqn:E.
  - left. now apply cell_eqb_eq.
  - right. now apply cell_eqb_neq.
Defined.

Lemma scalar_eqb_eq (a b : scalar) : scalar_eqb a b = true <-> a = b.
Proof. destruct a, b; simpl; split; intro H; congruence. Qed.

Lemma scalar_eqb_refl (a : scalar) : scalar_eqb a a = true.
Proof. now destruct a. Qed.

Lemma val_set_val_same st s c v : val (set_val st s c v) s c = v.
Proof. simpl. now rewrite scalar_eqb_refl, cell_eqb_refl. Qed.

Lemma val_set_val_other_cell st s c v s' d :
  d <> c -> val (set_val st s c v) s' d = val st s' d.
Proof.
  intro N. simpl. replace (cell_eqb c d) with false.
  - now rewrite andb_false_r.
  - symmetry. apply cell_eqb_neq. congruence.
Qed.

Lemma val_set_val_other_scalar st s c v s' d :
  s' <> s -> val (set_val st s c v) s' d = val st s' d.
Proof.
  intro N. simpl. destruct (scalar_eqb s s') eqn:E; [| reflexivity].
  apply scalar_eqb_eq in E. congruence.
Qed.

Lemma visited_In l c : visited l c = true <-> In c l.
Proof.
  unfold visited. rewrite existsb_exists. split.
  - intros (d & Hd & E). apply cell_eqb_eq in E. now subst.
  - intro H. exists c. split; [exact H | apply cell_eqb_refl].
Qed.

(** ** Loops whose body works on its own cell *)

Section OwnCell.

Variable body : cell -> state -> state.

(** The body writes to its own cell only, *)
Hypothesis body_local :
  forall c d st, d <> c -> agree_at d (body c st) st.
(** what it writes depends on the values of that cell only, *)
Hypothesis body_determined :
  forall c st st', agree_at c st st' -> agree_at c (body c st) (body c st').
(** and running it again on the same cell changes nothing. *)
Hypothesis body_idem :
  forall c st, agree_at c (body c (body c st)) (body c st).

Lemma fold_own_cell (l : list cell) :
  forall st c,
    agree_at c (fold_left (fun acc d => body d acc) l st)
               (if visited l c then body c st else st).
Proof.
  induction l as [| a l IH]; intros st c s; simpl.
  - reflexivity.
  - rewrite IH. destruct (cell_eq_dec c a) as [-> | N].
    + rewrite cell_eqb_refl. simpl.
      destruct (visited l a); [apply body_idem | reflexivity].
    + replace (cell_eqb c a) with false
        by (symmetry; now apply cell_eqb_neq).
      simpl. destruct (visited l c).
      * apply body_determined. intro s'. now apply body_local.
      * now apply body_local.
Qed.

End OwnCell.

Lemma fold_same_rest (body : cell -> state -> state) (l : list cell) :
  (forall c st, same_rest (body c st) st) ->
  forall st, same_rest (fold_left (fun acc d => body d acc) l st) st.
Proof.
  intro H. induction l as [| a l IH]; intro st; simpl.
  - repeat split.
  - destruct (IH (body a st)) as (E1 & E2 & E3 & E4).
    destruct (H a st) as (F1 & F2 & F3 & F4).
    repeat split; congruence.
Qed.

(** ** The repair of [f1] *)

Lemma needs_repair_iff st c :
  needs_repair st c = true <->
  1e-2 < val st f2 c /\ val st f1 c < 1 - 1e-2.
Proof.
  unfold needs_repair, Qgtb. now rewrite andb_true_iff, !Qltb_lt.
Qed.

Lemma needs_repair_agree c st st' :
  agree_at c st st' -> needs_repair st c = needs_repair st' c.
Proof. intro H. unfold needs_repair. now rewrite (H f1), (H f2). Qed.

Lemma correct_cell_local c d st : d <> c -> agree_at d (correct_cell c st) st.
Proof.
  intros N s. unfold correct_cell.
  destruct (needs_repair st c); [| reflexivity].
  now apply val_set_val_other_cell.
Qed.

Lemma correct_cell_determined c st st' :
  agree_at c st st' -> agree_at c (correct_cell c st) (correct_cell c st').
Proof.
  intros H s. unfold correct_cell.
  rewrite (needs_repair_agree c st st' H).
  destruct (needs_repair st' c); [| apply H].
  simpl. rewrite (H f2), (H s). reflexivity.
Qed.

Lemma correct_cell_idem c st :
  agree_at c (correct_cell c (correct_cell c st)) (correct_cell c st).
Proof.
  intro s. unfold correct_cell. destruct (needs_repair st c) eqn:R.
  - destruct (needs_repair (set_val st f1 c (val st f2 c)) c);
      [| reflexivity].
    simpl. rewrite cell_eqb_refl. destruct s; reflexivity.
  - rewrite R. reflexivity.
Qed.

Lemma correct_cell_rest c st : same_rest (correct_cell c st) st.
Proof.
  unfold correct_cell. destruct (needs_repair st c); repeat split.
Qed.

(** What the repair loop leaves in a cell: the body's effect on the cells
    it visits, nothing elsewhere. *)
Lemma repair_loop g st c :
  agree_at c (foreach g correct_cell st)
             (if visited (cells g) c then correct_cell c st else st).
Proof.
  apply fold_own_cell.
  - apply correct_cell_local.
  - apply correct_cell_determined.
  - apply correct_cell_idem.
Qed.

Lemma repair_loop_f1 g st c :
  val (foreach g correct_cell st) f1 c =
  if visited (cells g) c && needs_repair st c
  then val st f2 c else val st f1 c.
Proof.
  rewrite (repair_loop g st c f1). unfold correct_cell.
  destruct (visited (cells g) c); [| reflexivity].
  destruct (needs_repair st c); [| reflexivity].
  apply val_set_val_same.
Qed.

Lemma repair_loop_other g st s c :
  s <> f1 -> val (foreach g correct_cell st) s c = val st s c.
Proof.
  intro N. rewrite (repair_loop g st c s). unfold correct_cell.
  destruct (visited (cells g) c); [| reflexivity].
  destruct (needs_repair st c); [| reflexivity].
  now apply val_set_val_other_scalar.
Qed.

Lemma repair_loop_rest g st : same_rest (foreach g correct_cell st) st.
Proof. apply fold_same_rest. apply correct_cell_rest. Qed.

(** ** The smearing loops *)

Lemma smear_ext b (f f' : field) c :
  (forall d, f d = f' d) -> smear b f c = smear b f' c.
Proof.
  intro H. unfold smear, smear2, smear3. now rewrite !H.
Qed.

(** One smearing loop: [sf] receives the stencil of [f] in the visited
    cells; the stencil reads the values [f] had before the loop, since the
    loop never writes to [f]. *)
Lemma smear_loop b sf f (l : list cell) :
  sf <> f ->
  forall st s c,
    val (fold_left (fun acc d => smear_cell b sf f d acc) l st) s c =
    if scalar_eqb sf s && visited l c then smear b (val st f) c
    else val st s c.
Proof.
  intro N. induction l as [| a l IH]; intros st s c; simpl.
  - now rewrite andb_false_r.
  - rewrite IH.
    assert (E : smear b (val (smear_cell b sf f a st) f) c
                = smear b (val st f) c).
    { apply smear_ext. intro d. unfold smear_cell.
      apply val_set_val_other_scalar. congruence. }
    rewrite E. destruct (scalar_eqb sf s) eqn:S; simpl.
    + destruct (visited l c); [now rewrite orb_true_r |].
      rewrite orb_false_r, S. simpl.
      destruct (cell_eqb a c) eqn:A.
      * apply cell_eqb_eq in A. subst a. now rewrite cell_eqb_refl.
      * replace (cell_eqb c a) with false; [reflexivity |].
        symmetry. apply cell_eqb_neq. apply cell_eqb_neq in A. congruence.
    + now rewrite S.
Qed.

(** With [FILTERED], the two counters pair [sf1] with [f1] and [sf2] with
    [f2]: the nested loops amount to two smearing loops in a row. *)
Lemma smoothing_filtered b g st :
  FILTERED b = true ->
  smoothing b g st =
  foreach g (smear_cell b sf2_ f2) (foreach g (smear_cell b sf1_ f1) st).
Proof.
  intro F. unfold smoothing, smearInterfaces, sf1, sf2. rewrite F.
  reflexivity.
Qed.

Lemma smoothing_unfiltered b g st :
  FILTERED b = false -> smoothing b g st = st.
Proof. intro F. unfold smoothing. now rewrite F. Qed.

Lemma smoothing_val b g st s c :
  val (smoothing b g st) s c =
  if FILTERED b && visited (cells g) c then
    match s with
    | sf1_ => smear b (val st f1) c
    | sf2_ => smear b (val st f2) c
    | _ => val st s c
    end
  else val st s c.
Proof.
  destruct (FILTERED b) eqn:F; simpl.
  - rewrite smoothing_filtered by exact F. unfold foreach.
    rewrite smear_loop by discriminate.
    destruct (visited (cells g) c) eqn:V; simpl.
    + destruct s; simpl; rewrite ?smear_loop by discriminate;
        simpl; rewrite ?V; try reflexivity.
      apply smear_ext. intro d. now rewrite smear_loop by discriminate.
    + rewrite andb_false_r. rewrite smear_loop by discriminate.
      rewrite V. now rewrite andb_false_r.
  - now rewrite smoothing_unfiltered.
Qed.

Lemma mark_interfaces_val b r st : val (mark_interfaces b r st) = val st.
Proof.
  unfold mark_interfaces. destruct (TREE b); reflexivity.
Qed.

(** [tracer_advection] leaves in [f1] and [f2] what the repair left. *)
Lemma tracer_advection_raw b g i st s c :
  s = f1 \/ s = f2 ->
  val (tracer_advection b g i st) s c = val (corrector g i st) s c.
Proof.
  intro H. unfold tracer_advection.
  rewrite mark_interfaces_val, smoothing_val.
  destruct (FILTERED b && visited (cells g) c); [| reflexivity].
  destruct H as [-> | ->]; reflexivity.
Qed.

(** ** Claims on the Phase Consistency Corrector *)

(** C1.  From step index [i > 1] on, in every cell of the grid where [f2]
    exceeds [1e-2] and [f1] is below [1 - 1e-2], the corrector overwrites
    [f1] with the value of [f2]: after the correction, and at the end of
    the whole [tracer_advection] event, [f1] equals [f2] in that cell. *)
Theorem corrector_overwrites (b : build) (g : grid) (i : Z) (st : state)
  (c : cell) :
  (i > 1)%Z -> In c (cells g) ->
  1e-2 < val st f2 c -> val st f1 c < 1 - 1e-2 ->
  val (corrector g i st) f1 c = val st f2 c
  /\ val (corrector g i st) f1 c = val (corrector g i st) f2 c
  /\ val (tracer_advection b g i st) f1 c
     = val (tracer_advection b g i st) f2 c.
Proof.
  intros Hi Hc H2 H1.
  assert (R : needs_repair st c = true) by (apply needs_repair_iff; auto).
  assert (V : visited (cells g) c = true) by now apply visited_In.
  assert (E1 : val (corrector g i st) f1 c = val st f2 c).
  { unfold corrector. replace (i >? 1)%Z with true by (symmetry; lia).
    now rewrite repair_loop_f1, V, R. }
  assert (E2 : val (corrector g i st) f2 c = val st f2 c).
  { unfold corrector. destruct (i >? 1)%Z; [| reflexivity].
    now apply repair_loop_other. }
  repeat split.
  - exact E1.
  - congruence.
  - rewrite !tracer_advection_raw by auto. congruence.
Qed.

Lemma corrector_overwrites_witness :
  (2 > 1)%Z /\ In origin (cells unit_grid)
  /\ 1e-2 < val (uniform 0.5 0.3) f2 origin
  /\ val (uniform 0.5 0.3) f1 origin < 1 - 1e-2
  /\ val (corrector unit_grid 2 (uniform 0.5 0.3)) f1 origin = 0.3.
Proof.
  assert (Hi : (2 > 1)%Z) by reflexivity.
  assert (Hc : In origin (cells unit_grid)) by (left; reflexivity).
  assert (H2 : 1e-2 < val (uniform 0.5 0.3) f2 origin) by reflexivity.
  assert (H1 : val (uniform 0.5 0.3) f1 origin < 1 - 1e-2) by reflexivity.
  split; [exact Hi |]. split; [exact Hc |].
  split; [exact H2 |]. split; [exact H1 |].
  exact (proj1 (corrector_overwrites plain_2d unit_grid 2 (uniform 0.5 0.3)
                  origin Hi Hc H2 H1)).
Defined.

(** C9.  The corrector writes to [f1] only: [f2] and every other scalar keep
    their values in every cell, the face fields and refinement marks are
    untouched, and [f1] keeps its value in every cell where the test
    [f2 > 1e-2 && f1 < 1 - 1e-2] fails. *)
Theorem corrector_frame (g : grid) (i : Z) (st : state) :
  (forall c, val (corrector g i st) f2 c = val st f2 c)
  /\ (forall c, ~ (1e-2 < val st f2 c /\ val st f1 c < 1 - 1e-2) ->
                val (corrector g i st) f1 c = val st f1 c)
  /\ (forall s c, s <> f1 -> val (corrector g i st) s c = val st s c)
  /\ same_rest (corrector g i st) st.
Proof.
  unfold corrector. destruct (i >? 1)%Z.
  - repeat split.
    + intro c. now apply repair_loop_other.
    + intros c N. rewrite repair_loop_f1.
      destruct (needs_repair st c) eqn:R.
      * apply needs_repair_iff in R. contradiction.
      * now rewrite andb_false_r.
    + intros s c N. now apply repair_loop_other.
    + apply repair_loop_rest.
    + apply repair_loop_rest.
    + apply repair_loop_rest.
    + apply repair_loop_rest.
  - repeat split.
Qed.

Lemma corrector_frame_witness :
  ~ (1e-2 < val (uniform 0.5 0) f2 origin
     /\ val (uniform 0.5 0) f1 origin < 1 - 1e-2)
  /\ val (corrector unit_grid 2 (uniform 0.5 0)) f1 origin = 0.5
  /\ val (corrector unit_grid 2 (uniform 0.5 0.3)) f2 origin = 0.3.
Proof.
  assert (N : ~ (1e-2 < val (uniform 0.5 0) f2 origin
                 /\ val (uniform 0.5 0) f1 origin < 1 - 1e-2)).
  { intros [H _]. vm_compute in H. discriminate H. }
  split; [exact N |]. split.
  - exact (proj1 (proj2 (corrector_frame unit_grid 2 (uniform 0.5 0)))
             origin N).
  - exact (proj1 (corrector_frame unit_grid 2 (uniform 0.5 0.3)) origin).
Defined.

(** C10.  The correction pass is idempotent: running the per-cell
    correction twice in a row leaves, in every cell, the same [f1] (and the
    same value of every other scalar) as running it once. *)
Theorem corrector_idempotent (g : grid) (i : Z) (st : state) :
  (forall c, val (foreach g correct_cell (foreach g correct_cell st)) f1 c
             = val (foreach g correct_cell st) f1 c)
  /\ (forall s c, val (corrector g i (corrector g i st)) s c
                  = val (corrector g i st) s c).
Proof.
  assert (P : forall s c,
             val (foreach g correct_cell (foreach g correct_cell st)) s c
             = val (foreach g correct_cell st) s c).
  { intros s c. destruct s;
      try (apply repair_loop_other; discriminate).
    rewrite repair_loop_f1.
    destruct (visited (cells g) c) eqn:V; [| reflexivity]. simpl.
    destruct (needs_repair (foreach g correct_cell st) c) eqn:R2;
      [| reflexivity].
    rewrite repair_loop_other by discriminate.
    rewrite repair_loop_f1, V. simpl.
    destruct (needs_repair st c) eqn:R1; [reflexivity |].
    (* the first pass kept this cell, so the second test is the first *)
    exfalso. unfold needs_repair in R2.
    rewrite repair_loop_other in R2 by discriminate.
    rewrite repair_loop_f1, R1, andb_false_r in R2.
    unfold needs_repair in R1. congruence. }
  split.
  - intro c. apply P.
  - intros s c. unfold corrector. destruct (i >? 1)%Z; [apply P | reflexivity].
Qed.

(** ** Claim on the step index *)

(** At step indices 0 and 1, in a build with [FILTERED], the event replaces
    the zero in [sf1] by the stencil of [f1]: the smearing is applied
    although the step index is not greater than 1. *)
Lemma smoothing_runs_at_early_steps :
  (0 <= 1)%Z /\ (1 <= 1)%Z
  /\ val (uniform 1 0) sf1_ origin == 0
  /\ val (tracer_advection filtered_2d unit_grid 0 (uniform 1 0)) sf1_ origin
     == 1
  /\ val (tracer_advection filtered_2d unit_grid 1 (uniform 1 0)) sf1_ origin
     == 1
  /\ ~ (forall b g i st, (i <= 1)%Z ->
        forall s c, val (tracer_advection b g i st) s c == val st s c).
Proof.
  split; [discriminate |]. split; [discriminate |].
  split; [reflexivity |]. split; [reflexivity |]. split; [reflexivity |].
  intro H.
  specialize (H filtered_2d unit_grid 0%Z (uniform 1 0)).
  assert (L : (0 <= 1)%Z) by discriminate.
  specialize (H L sf1_ origin). vm_compute in H. discriminate H.
Qed.

(** C3, amended.  Only the corrector is conditioned on the step index: at
    an index not greater than 1 it leaves the state as it is, at a greater
    index it runs its loop.  The smearing does not look at the step index:
    in a build with [FILTERED] every cell of the grid receives, at every
    step, the stencil of the fractions as the corrector left them; in a
    build without [FILTERED] the event applies no stencil at any step. *)
Theorem step_gating (b : build) (g : grid) (i : Z) (st : state) :
  ((i <= 1)%Z -> corrector g i st = st)
  /\ ((i > 1)%Z -> corrector g i st = foreach g correct_cell st)
  /\ (FILTERED b = true -> forall c, In c (cells g) ->
        val (tracer_advection b g i st) sf1_ c
        = smear b (val (corrector g i st) f1) c
        /\ val (tracer_advection b g i st) sf2_ c
           = smear b (val (corrector g i st) f2) c)
  /\ (FILTERED b = false ->
        forall s c, val (tracer_advection b g i st) s c
                    = val (corrector g i st) s c).
Proof.
  split; [| split; [| split]].
  - intro H. unfold corrector.
    replace (i >? 1)%Z with false by (symmetry; lia). reflexivity.
  - intro H. unfold corrector.
    replace (i >? 1)%Z with true by (symmetry; lia). reflexivity.
  - intros F c Hc. apply visited_In in Hc. unfold tracer_advection.
    rewrite mark_interfaces_val, !smoothing_val, F, Hc. simpl. auto.
  - intros F s c. unfold tracer_advection.
    rewrite mark_interfaces_val, smoothing_val, F. reflexivity.
Qed.

Lemma step_gating_witness :
  (1 <= 1)%Z /\ FILTERED filtered_2d = true /\ In origin (cells unit_grid)
  /\ corrector unit_grid 1 (uniform 1 0) = uniform 1 0
  /\ val (tracer_advection filtered_2d unit_grid 1 (uniform 1 0)) sf1_ origin
     = smear filtered_2d (val (corrector unit_grid 1 (uniform 1 0)) f1) origin.
Proof.
  assert (Hi : (1 <= 1)%Z) by discriminate.
  assert (Hc : In origin (cells unit_grid)) by (left; reflexivity).
  assert (F : FILTERED filtered_2d = true) by reflexivity.
  pose proof (step_gating filtered_2d unit_grid 1 (uniform 1 0))
    as (G1' & _ & G3' & _).
  split; [exact Hi |]. split; [exact F |]. split; [exact Hc |].
  split; [exact (G1' Hi) |].
  exact (proj1 (G3' F origin Hc)).
Defined.

(** ** The cell pass of [properties] *)

Lemma property_cell_same b g p c st s :
  val (property_cell b g p c st) s c = cell_values b g p c st s.
Proof.
  unfold cell_values, accumulate, property_cell, gate, wA, wB, wC, sf1, sf2.
  destruct (FILTERED b);
    cbn [val set_val scalar_eqb andb];
    gate_cases st c p;
    rewrite ?cell_eqb_refl; destruct s; reflexivity.
Qed.

Lemma gate_other_cell p G lam w c st s d :
  d <> c -> val (gate p G lam w c st) s d = val st s d.
Proof.
  intro N. unfold gate. destruct (Qgtb (w st) (TOLelastic p));
    [| reflexivity].
  now rewrite !val_set_val_other_cell.
Qed.

Lemma property_cell_local b g p c d st :
  d <> c -> agree_at d (property_cell b g p c st) st.
Proof.
  intros N s. unfold property_cell.
  rewrite !gate_other_cell by exact N.
  now rewrite !val_set_val_other_cell.
Qed.

Lemma cell_values_agree b g p c st st' :
  agree_at c st st' ->
  forall s, cell_values b g p c st s = cell_values b g p c st' s.
Proof.
  intros H s. unfold cell_values, wA, wB, wC.
  now rewrite !(H (sf1 b)), !(H (sf2 b)), (H s).
Qed.

Lemma property_cell_determined b g p c st st' :
  agree_at c st st' ->
  agree_at c (property_cell b g p c st) (property_cell b g p c st').
Proof.
  intros H s. rewrite !property_cell_same. now apply cell_values_agree.
Qed.

(** The cell pass reads [sf1] and [sf2], which it never writes. *)
Lemma property_cell_fractions b g p c st :
  val (property_cell b g p c st) (sf1 b) c = val st (sf1 b) c
  /\ val (property_cell b g p c st) (sf2 b) c = val st (sf2 b) c.
Proof.
  rewrite !property_cell_same. unfold sf1, sf2.
  destruct (FILTERED b); split; reflexivity.
Qed.

Lemma property_cell_idem b g p c st :
  agree_at c (property_cell b g p c (property_cell b g p c st))
             (property_cell b g p c st).
Proof.
  intro s. rewrite !property_cell_same.
  destruct (property_cell_fractions b g p c st) as [E1 E2].
  unfold cell_values, wA, wB, wC. rewrite E1, E2.
  destruct s; try reflexivity; rewrite property_cell_same; reflexivity.
Qed.

Lemma face_loop_val b g p (l : list (axis * cell)) :
  forall st,
    val (fold_left (fun acc ac => face_cell b g p (fst ac) (snd ac) acc) l st)
    = val st.
Proof.
  induction l as [| a l IH]; intro st; simpl; [reflexivity |].
  now rewrite IH.
Qed.

(** What [properties] leaves in a cell of the grid. *)
Lemma properties_val b g p st s c :
  In c (cells g) ->
  val (properties b g p st) s c = cell_values b g p c st s.
Proof.
  intro Hc. apply visited_In in Hc. unfold properties.
  rewrite mark_interfaces_val. unfold foreach.
  rewrite (fold_own_cell (property_cell b g p)
             (property_cell_local b g p)
             (property_cell_determined b g p)
             (property_cell_idem b g p)).
  rewrite Hc, property_cell_same.
  apply cell_values_agree. intro s'. unfold foreach_face.
  now rewrite face_loop_val.
Qed.

(** ** The face pass of [properties] *)

Lemma axis_eqb_eq (a a' : axis) : axis_eqb a a' = true <-> a = a'.
Proof. destruct a, a'; simpl; split; intro H; congruence. Qed.

Lemma face_eqb_swap (a a' : axis) (c c' : cell) :
  axis_eqb a a' && cell_eqb c c' = axis_eqb a' a && cell_eqb c' c.
Proof.
  destruct (axis_eqb a a' && cell_eqb c c') eqn:E; symmetry.
  - apply andb_true_iff in E. destruct E as [E1 E2].
    apply axis_eqb_eq in E1. apply cell_eqb_eq in E2. subst.
    apply andb_true_iff. split; [now apply axis_eqb_eq | apply cell_eqb_refl].
  - apply not_true_is_false. intro T. apply andb_true_iff in T.
    destruct T as [T1 T2]. apply axis_eqb_eq in T1. apply cell_eqb_eq in T2.
    subst. rewrite cell_eqb_refl in E.
    replace (axis_eqb a a) with true in E by (now destruct a).
    discriminate E.
Qed.

(** The face viscosity and specific volume that the face loop leaves on a
    face it visits: the loop reads only scalars, which it never writes. *)
Lemma face_loop b g p (l : list (axis * cell)) :
  forall st a c,
    let ff1 := face_average st (sf1 b) a c in
    let ff2 := face_average st (sf2 b) a c in
    let st' := fold_left
                 (fun acc ac => face_cell b g p (fst ac) (snd ac) acc) l st in
    muv st' a c
    = (if face_visited l a c then fm g a c * mu p ff1 ff2 else muv st a c)
    /\ alphav st' a c
       = (if face_visited l a c
          then (if Qeq_bool (rho p ff1 ff2) 0 then None
                else Some (fm g a c / rho p ff1 ff2))
          else alphav st a c).
Proof.
  induction l as [| [a0 c0] l IH]; intros st a c; simpl.
  - split; reflexivity.
  - destruct (IH (face_cell b g p a0 c0 st) a c) as [M A].
    rewrite M, A. clear M A IH.
    change (face_average (face_cell b g p a0 c0 st))
      with (face_average st).
    destruct (face_visited l a c).
    + rewrite orb_true_r. split; reflexivity.
    + rewrite orb_false_r. simpl.
      rewrite (face_eqb_swap a0 a c0 c).
      destruct (axis_eqb a a0 && cell_eqb c c0) eqn:E.
      * apply andb_true_iff in E. destruct E as [E1 E2].
        apply axis_eqb_eq in E1. apply cell_eqb_eq in E2. subst.
        split; reflexivity.
      * split; reflexivity.
Qed.

Lemma face_visited_In l a c : In (a, c) l -> face_visited l a c = true.
Proof.
  intro H. unfold face_visited. apply existsb_exists. exists (a, c).
  split; [exact H |]. simpl. rewrite cell_eqb_refl.
  now destruct a.
Qed.

Lemma mark_interfaces_faces b r st :
  muv (mark_interfaces b r st) = muv st
  /\ alphav (mark_interfaces b r st) = alphav st.
Proof.
  unfold mark_interfaces. destruct (TREE b); split; reflexivity.
Qed.

(** The cell loop of [properties] leaves the face fields alone. *)
Lemma property_cell_rest b g p c st : same_rest (property_cell b g p c st) st.
Proof.
  unfold property_cell, gate.
  repeat match goal with
    | |- context [if ?t then _ else _] => destruct t
    end; repeat split.
Qed.

Lemma properties_muv b g p st a c :
  In (a, c) (faces g) ->
  muv (properties b g p st) a c
  = fm g a c * mu p (face_average st (sf1 b) a c)
                    (face_average st (sf2 b) a c).
Proof.
  intro H. unfold properties.
  rewrite (proj1 (mark_interfaces_faces b fraction_refine _)).
  unfold foreach.
  destruct (fold_same_rest (property_cell b g p) (cells g)
              (property_cell_rest b g p)
              (foreach_face g (face_cell b g p) st)) as (_ & E & _).
  rewrite E. unfold foreach_face.
  destruct (face_loop b g p (faces g) st a c) as [M _].
  rewrite M, (face_visited_In _ _ _ H). reflexivity.
Qed.

(** ** Claims on the Material Property Evaluator *)

(** C2.  The [rho] and [mu] macros are the arithmetic average of the spec:
    each of the three phase fractions of [(a, b)] is clamped to [0,1] on
    its own and weights the constant of its phase.  [properties] writes
    this law, times the metric factor, into the cell density and the face
    viscosity. *)
Theorem default_mixing_law (b : build) (g : grid) (p : params) (st : state) :
  (forall x y, rho p x y = arithmetic_average (rho1 p) (rho2 p) (rho3 p) x y)
  /\ (forall x y, mu p x y = arithmetic_average (mu1 p) (mu2 p) (mu3 p) x y)
  /\ (forall c, In c (cells g) ->
        val (properties b g p st) rhov c
        = cm g c * arithmetic_average (rho1 p) (rho2 p) (rho3 p)
                     (val st (sf1 b) c) (val st (sf2 b) c))
  /\ (forall a c, In (a, c) (faces g) ->
        muv (properties b g p st) a c
        = fm g a c * arithmetic_average (mu1 p) (mu2 p) (mu3 p)
                       (face_average st (sf1 b) a c)
                       (face_average st (sf2 b) a c)).
Proof.
  split; [| split; [| split]].
  - reflexivity.
  - reflexivity.
  - intros c Hc. now rewrite properties_val.
  - intros a c H. now rewrite properties_muv.
Qed.

Lemma default_mixing_law_witness :
  In origin (cells unit_grid) /\ In (ax_x, origin) (faces unit_grid)
  /\ val (properties plain_2d unit_grid header_params (uniform 0.5 0.3))
       rhov origin
     = cm unit_grid origin * arithmetic_average 1 1 1 0.5 0.3
  /\ muv (properties plain_2d unit_grid header_params (uniform 0.5 0.3))
       ax_x origin
     = fm unit_grid ax_x origin
       * arithmetic_average 0 0 0
           (face_average (uniform 0.5 0.3) f1 ax_x origin)
           (face_average (uniform 0.5 0.3) f2 ax_x origin).
Proof.
  assert (Hc : In origin (cells unit_grid)) by (left; reflexivity).
  assert (Hf : In (ax_x, origin) (faces unit_grid)) by (left; reflexivity).
  pose proof (default_mixing_law plain_2d unit_grid header_params
                (uniform 0.5 0.3)) as (_ & _ & R & M).
  split; [exact Hc |]. split; [exact Hf |].
  split; [exact (R origin Hc) | exact (M ax_x origin Hf)].
Defined.

Lemma share_at_threshold p K w : w == TOLelastic p -> share p K w = 0.
Proof.
  intro E. unfold share.
  replace (Qgtb w (TOLelastic p)) with false; [reflexivity |].
  symmetry. unfold Qgtb. apply Qltb_ge. rewrite E. apply Qle_refl.
Qed.

Lemma share_above_threshold p K w :
  TOLelastic p < w -> share p K w = K * w.
Proof.
  intro L. unfold share.
  replace (Qgtb w (TOLelastic p)) with true; [reflexivity |].
  symmetry. unfold Qgtb. now apply Qltb_lt.
Qed.

Lemma accumulate_shares p K1 K2 K3 wa wb wc :
  accumulate p K1 K2 K3 wa wb wc
  == share p K1 wa + share p K2 wb + share p K3 wc.
Proof.
  unfold accumulate, share.
  destruct (Qgtb wa (TOLelastic p)), (Qgtb wb (TOLelastic p)),
    (Qgtb wc (TOLelastic p)); ring.
Qed.

(** C4.  The threshold test is strict.  In every cell of the grid the
    elastic modulus and the relaxation time are the sum of the shares of
    the three phases; a phase whose clamped fraction equals [TOLelastic]
    has share zero (its gated block leaves the state as it is), and a phase
    whose clamped fraction is [TOLelastic + eps], for any [eps > 0], has
    share constant times fraction. *)
Theorem threshold_gating (b : build) (g : grid) (p : params) (st : state)
  (c : cell) (eps : double) :
  In c (cells g) -> 0 < eps ->
  val (properties b g p st) Gpd c
  == share p (G1 p) (wA b c st) + share p (G2 p) (wB b c st)
     + share p (G3 p) (wC b c st)
  /\ val (properties b g p st) lambdapd c
     == share p (lambda1 p) (wA b c st) + share p (lambda2 p) (wB b c st)
        + share p (lambda3 p) (wC b c st)
  /\ (forall K w, w == TOLelastic p -> share p K w = 0)
  /\ (forall K w, w == TOLelastic p + eps -> share p K w = K * w)
  /\ (forall G lam w d s, w s == TOLelastic p -> gate p G lam w d s = s)
  /\ (forall G lam w d s, w s == TOLelastic p + eps ->
        val (gate p G lam w d s) Gpd d = val s Gpd d + G * w s).
Proof.
  intros Hc He.
  split; [| split; [| split; [| split; [| split]]]].
  - rewrite properties_val by exact Hc. apply accumulate_shares.
  - rewrite properties_val by exact Hc. apply accumulate_shares.
  - intros K w E. now apply share_at_threshold.
  - intros K w E. apply share_above_threshold. rewrite E.
    rewrite <- (Qplus_0_r (TOLelastic p)) at 1.
    apply Qplus_lt_r. exact He.
  - intros G lam w d s E. unfold gate.
    replace (Qgtb (w s) (TOLelastic p)) with false; [reflexivity |].
    symmetry. unfold Qgtb. apply Qltb_ge. rewrite E. apply Qle_refl.
  - intros G lam w d s E. unfold gate.
    replace (Qgtb (w s) (TOLelastic p)) with true.
    + cbn [val set_val scalar_eqb andb]. now rewrite cell_eqb_refl.
    + symmetry. unfold Qgtb. apply Qltb_lt. rewrite E.
      rewrite <- (Qplus_0_r (TOLelastic p)) at 1.
      apply Qplus_lt_r. exact He.
Qed.

Lemma threshold_gating_witness :
  In origin (cells unit_grid) /\ 0 < 0.85
  /\ wA plain_2d origin (uniform 0.1 0) == TOLelastic elastic_C
  /\ wC plain_2d origin (uniform 0.05 0) == TOLelastic elastic_C + 0.85
  /\ share elastic_C 1 (wA plain_2d origin (uniform 0.1 0)) = 0
  /\ share elastic_C 1 (wC plain_2d origin (uniform 0.05 0))
     = 1 * wC plain_2d origin (uniform 0.05 0).
Proof.
  assert (Hc : In origin (cells unit_grid)) by (left; reflexivity).
  assert (He : 0 < 0.85) by reflexivity.
  assert (EA : wA plain_2d origin (uniform 0.1 0) == TOLelastic elastic_C)
    by reflexivity.
  assert (EC : wC plain_2d origin (uniform 0.05 0)
               == TOLelastic elastic_C + 0.85) by reflexivity.
  pose proof (threshold_gating plain_2d unit_grid elastic_C (uniform 0.1 0)
                origin 0.85 Hc He) as (_ & _ & Z0 & Z1 & _).
  split; [exact Hc |]. split; [exact He |].
  split; [exact EA |]. split; [exact EC |].
  split; [exact (Z0 1 _ EA) | exact (Z1 1 _ EC)].
Defined.

Lemma clamp_unit (x : double) : 0 <= clamp x 0 1 <= 1.
Proof.
  unfold clamp. destruct (Qltb x 0) eqn:L.
  - split; [apply Qle_refl | discriminate].
  - destruct (Qgtb x 1) eqn:U.
    + split; [discriminate | apply Qle_refl].
    + split; [now apply Qltb_ge | now apply Qltb_ge].
Qed.

(** C6.  Whatever the fractions, in range or not, every clamped
    phase-fraction term lies in [0,1]: the three weights of the mixing laws
    for any pair [(x, y)], and the three fractions that [properties] tests
    against the threshold in any cell of any state. *)
Theorem clamped_fractions_in_unit_interval :
  (forall x y : double,
      0 <= clamp (phaseA x y) 0 1 <= 1
      /\ 0 <= clamp (phaseB x y) 0 1 <= 1
      /\ 0 <= clamp (phaseC x) 0 1 <= 1)
  /\ (forall (b : build) (c : cell) (st : state),
         0 <= wA b c st <= 1 /\ 0 <= wB b c st <= 1 /\ 0 <= wC b c st <= 1).
Proof.
  split.
  - intros x y. repeat split; apply clamp_unit.
  - intros b c st. unfold wA, wB, wC. repeat split; apply clamp_unit.
Qed.

(** The fractions of the spec's example, [f1 = 1.3] and [f2 = -0.2]: the
    unclamped phase fractions 1.56, -0.26 and -0.3 become 1, 0 and 0. *)
Example clamped_fractions_overshoot :
  clamp (phaseA 1.3 (-0.2)) 0 1 == 1
  /\ clamp (phaseB 1.3 (-0.2)) 0 1 == 0
  /\ clamp (phaseC 1.3) 0 1 == 0.
Proof. repeat split. Qed.

(** With the header's constants and an elastic phase C ([G3 = lambda3 = 1])
    the cell of scenario 3 ends with elastic modulus and relaxation time
    0.95, not 0. *)
Lemma scenario3_fields_not_zero :
  val (uniform 0.05 0) (sf1 plain_2d) origin == 0.05
  /\ val (uniform 0.05 0) (sf2 plain_2d) origin == 0
  /\ TOLelastic elastic_C == 0.1
  /\ val (properties plain_2d unit_grid elastic_C (uniform 0.05 0)) Gpd origin
     == 0.95
  /\ val (properties plain_2d unit_grid elastic_C (uniform 0.05 0))
       lambdapd origin == 0.95
  /\ ~ val (properties plain_2d unit_grid elastic_C (uniform 0.05 0))
         Gpd origin == 0
  /\ ~ val (properties plain_2d unit_grid elastic_C (uniform 0.05 0))
         lambdapd origin == 0.
Proof.
  repeat split; intro H; vm_compute in H; discriminate H.
Qed.

(** C8, amended.  In a cell of the grid with [sf1 = 0.05], [sf2 = 0] and
    [TOLelastic = 0.1], the phase-A fraction 0.05 and the phase-B fraction
    0 fail the threshold test and the phase-C fraction 0.95 passes it: the
    elastic modulus is [G3 * 0.95] and the relaxation time is
    [lambda3 * 0.95], the share of phase C alone. *)
Theorem scenario3_phase_C_only (b : build) (g : grid) (p : params)
  (st : state) (c : cell) :
  In c (cells g) ->
  val st (sf1 b) c == 0.05 -> val st (sf2 b) c == 0 ->
  TOLelastic p == 0.1 ->
  val (properties b g p st) Gpd c == G3 p * 0.95
  /\ val (properties b g p st) lambdapd c == lambda3 p * 0.95.
Proof.
  intros Hc H1 H2 HT.
  assert (EA : wA b c st == 0.05).
  { unfold wA, phaseA. rewrite H1, H2. reflexivity. }
  assert (EB : wB b c st == 0).
  { unfold wB, phaseB. rewrite H1, H2. reflexivity. }
  assert (EC : wC b c st == 0.95).
  { unfold wC, phaseC. rewrite H1. reflexivity. }
  assert (SA : forall K, share p K (wA b c st) = 0).
  { intro K. unfold share.
    now rewrite (Qgtb_proper _ _ EA _ _ HT). }
  assert (SB : forall K, share p K (wB b c st) = 0).
  { intro K. unfold share.
    now rewrite (Qgtb_proper _ _ EB _ _ HT). }
  assert (SC : forall K, share p K (wC b c st) == K * 0.95).
  { intro K. unfold share.
    rewrite (Qgtb_proper _ _ EC _ _ HT).
    change (Qgtb 0.95 0.1) with true. cbv iota. now rewrite EC. }
  rewrite !properties_val by exact Hc. unfold cell_values.
  rewrite !accumulate_shares, !SA, !SB, !SC. split; ring.
Qed.

Lemma scenario3_phase_C_only_witness :
  In origin (cells unit_grid)
  /\ val (uniform 0.05 0) (sf1 plain_2d) origin == 0.05
  /\ val (uniform 0.05 0) (sf2 plain_2d) origin == 0
  /\ TOLelastic elastic_C == 0.1
  /\ val (properties plain_2d unit_grid elastic_C (uniform 0.05 0)) Gpd origin
     == G3 elastic_C * 0.95.
Proof.
  assert (Hc : In origin (cells unit_grid)) by (left; reflexivity).
  assert (H1 : val (uniform 0.05 0) (sf1 plain_2d) origin == 0.05)
    by reflexivity.
  assert (H2 : val (uniform 0.05 0) (sf2 plain_2d) origin == 0)
    by reflexivity.
  assert (HT : TOLelastic elastic_C == 0.1) by reflexivity.
  split; [exact Hc |]. split; [exact H1 |]. split; [exact H2 |].
  split; [exact HT |].
  exact (proj1 (scenario3_phase_C_only plain_2d unit_grid elastic_C
                  (uniform 0.05 0) origin Hc H1 H2 HT)).
Defined.

(** * Further properties of the two events *)

(** ** The corrector *)

Lemma corrector_f1 g i st c :
  val (corrector g i st) f1 c =
  if (i >? 1)%Z && visited (cells g) c && needs_repair st c
  then val st f2 c else val st f1 c.
Proof.
  unfold corrector. destruct (i >? 1)%Z; [| reflexivity].
  simpl. apply repair_loop_f1.
Qed.

Lemma corrector_other g i st s c :
  s <> f1 -> val (corrector g i st) s c = val st s c.
Proof.
  intro N. unfold corrector. destruct (i >? 1)%Z; [| reflexivity].
  now apply repair_loop_other.
Qed.

(** X1.  The repair works in both directions: where the test holds the new
    [f1] is the value of [f2], so it is raised when [f1] was below [f2] and
    lowered when [f1] was above [f2]. *)
Theorem corrector_moves_both_ways (g : grid) (i : Z) (st : state) (c : cell) :
  (i > 1)%Z -> In c (cells g) ->
  1e-2 < val st f2 c -> val st f1 c < 1 - 1e-2 ->
  (val st f1 c < val st f2 c ->
     val st f1 c < val (corrector g i st) f1 c)
  /\ (val st f2 c < val st f1 c ->
        val (corrector g i st) f1 c < val st f1 c).
Proof.
  intros Hi Hc H2 H1.
  assert (E : val (corrector g i st) f1 c = val st f2 c).
  { rewrite corrector_f1.
    replace (i >? 1)%Z with true by (symmetry; lia).
    replace (visited (cells g) c) with true
      by (symmetry; now apply visited_In).
    replace (needs_repair st c) with true
      by (symmetry; apply needs_repair_iff; auto).
    reflexivity. }
  rewrite E. split; auto.
Qed.

Lemma corrector_moves_both_ways_witness :
  (2 > 1)%Z /\ In origin (cells unit_grid)
  /\ 1e-2 < val (uniform 0.8 0.5) f2 origin
  /\ val (uniform 0.8 0.5) f1 origin < 1 - 1e-2
  /\ val (uniform 0.8 0.5) f2 origin < val (uniform 0.8 0.5) f1 origin
  /\ val (corrector unit_grid 2 (uniform 0.8 0.5)) f1 origin
     < val (uniform 0.8 0.5) f1 origin.
Proof.
  assert (Hi : (2 > 1)%Z) by reflexivity.
  assert (Hc : In origin (cells unit_grid)) by (left; reflexivity).
  assert (H2 : 1e-2 < val (uniform 0.8 0.5) f2 origin) by reflexivity.
  assert (H1 : val (uniform 0.8 0.5) f1 origin < 1 - 1e-2) by reflexivity.
  assert (L : val (uniform 0.8 0.5) f2 origin
              < val (uniform 0.8 0.5) f1 origin) by reflexivity.
  split; [exact Hi |]. split; [exact Hc |]. split; [exact H2 |].
  split; [exact H1 |]. split; [exact L |].
  exact (proj2 (corrector_moves_both_ways unit_grid 2 (uniform 0.8 0.5)
                  origin Hi Hc H2 H1) L).
Defined.

(** X2.  What holds in a visited cell after a correction at a step index
    greater than 1: [f2] is at most [1e-2], or [f1] is at least [1 - 1e-2],
    or [f1] equals [f2]. *)
Theorem corrector_postcondition (g : grid) (i : Z) (st : state) (c : cell) :
  (i > 1)%Z -> In c (cells g) ->
  val (corrector g i st) f2 c <= 1e-2
  \/ 1 - 1e-2 <= val (corrector g i st) f1 c
  \/ val (corrector g i st) f1 c = val (corrector g i st) f2 c.
Proof.
  intros Hi Hc.
  rewrite corrector_f1, (corrector_other g i st f2) by discriminate.
  replace (i >? 1)%Z with true by (symmetry; lia).
  replace (visited (cells g) c) with true
    by (symmetry; now apply visited_In).
  simpl. unfold needs_repair, Qgtb.
  destruct (Qltb 1e-2 (val st f2 c)) eqn:A; simpl.
  - destruct (Qltb (val st f1 c) (1 - 1e-2)) eqn:B.
    + right; right. reflexivity.
    + right; left. now apply Qltb_ge.
  - left. now apply Qltb_ge.
Qed.

Lemma corrector_postcondition_witness :
  (2 > 1)%Z /\ In origin (cells unit_grid)
  /\ (val (corrector unit_grid 2 (uniform 0.995 1)) f2 origin <= 1e-2
      \/ 1 - 1e-2 <= val (corrector unit_grid 2 (uniform 0.995 1)) f1 origin
      \/ val (corrector unit_grid 2 (uniform 0.995 1)) f1 origin
         = val (corrector unit_grid 2 (uniform 0.995 1)) f2 origin).
Proof.
  assert (Hi : (2 > 1)%Z) by reflexivity.
  assert (Hc : In origin (cells unit_grid)) by (left; reflexivity).
  split; [exact Hi |]. split; [exact Hc |].
  exact (corrector_postcondition unit_grid 2 (uniform 0.995 1) origin Hi Hc).
Defined.

(** X3.  The corrector invents no value: in every cell the new [f1] is the
    old [f1] or the old [f2] of that cell, so bounds that both fractions
    respect in a cell are respected by the new [f1]. *)
Theorem corrector_keeps_range (g : grid) (i : Z) (st : state) (c : cell)
  (lo hi : double) :
  lo <= val st f1 c <= hi -> lo <= val st f2 c <= hi ->
  (val (corrector g i st) f1 c = val st f1 c
   \/ val (corrector g i st) f1 c = val st f2 c)
  /\ lo <= val (corrector g i st) f1 c <= hi.
Proof.
  intros H1 H2. rewrite corrector_f1.
  destruct ((i >? 1)%Z && visited (cells g) c && needs_repair st c); auto.
Qed.

Lemma corrector_keeps_range_witness :
  0 <= val (uniform 0.5 0.3) f1 origin <= 1
  /\ 0 <= val (uniform 0.5 0.3) f2 origin <= 1
  /\ 0 <= val (corrector unit_grid 2 (uniform 0.5 0.3)) f1 origin <= 1.
Proof.
  assert (H1 : 0 <= val (uniform 0.5 0.3) f1 origin <= 1)
    by (split; discriminate).
  assert (H2 : 0 <= val (uniform 0.5 0.3) f2 origin <= 1)
    by (split; discriminate).
  split; [exact H1 |]. split; [exact H2 |].
  exact (proj2 (corrector_keeps_range unit_grid 2 (uniform 0.5 0.3) origin
                  0 1 H1 H2)).
Defined.

(** ** Independence of the order of the loops *)

Lemma visited_same (l l' : list cell) (c : cell) :
  (forall d, In d l <-> In d l') -> visited l c = visited l' c.
Proof.
  intro H. destruct (visited l c) eqn:V; symmetry.
  - apply visited_In. apply H. now apply visited_In.
  - apply not_true_is_false. intro T. apply visited_In in T.
    apply H in T. apply visited_In in T. congruence.
Qed.

Lemma face_visited_iff l a c : face_visited l a c = true <-> In (a, c) l.
Proof.
  split; [| apply face_visited_In].
  unfold face_visited. rewrite existsb_exists.
  intros ([a' c'] & H & E). simpl in E. apply andb_true_iff in E.
  destruct E as [E1 E2]. apply axis_eqb_eq in E1. apply cell_eqb_eq in E2.
  now subst.
Qed.

Lemma face_visited_same (l l' : list (axis * cell)) a c :
  (forall a' c', In (a', c') l <-> In (a', c') l') ->
  face_visited l a c = face_visited l' a c.
Proof.
  intro H. destruct (face_visited l a c) eqn:V; symmetry.
  - apply face_visited_iff. apply H. now apply face_visited_iff.
  - apply not_true_is_false. intro T. apply face_visited_iff in T.
    apply H in T. apply face_visited_iff in T. congruence.
Qed.

(** [properties] in every cell, visited or not. *)
Lemma properties_val_all b g p st s c :
  val (properties b g p st) s c =
  if visited (cells g) c then cell_values b g p c st s else val st s c.
Proof.
  destruct (visited (cells g) c) eqn:V.
  - apply properties_val. now apply visited_In.
  - unfold properties. rewrite mark_interfaces_val. unfold foreach.
    rewrite (fold_own_cell (property_cell b g p)
               (property_cell_local b g p)
               (property_cell_determined b g p)
               (property_cell_idem b g p)).
    rewrite V. unfold foreach_face. now rewrite face_loop_val.
Qed.

(** The face fields of [properties] on every face, visited or not. *)
Lemma properties_faces b g p st a c :
  muv (properties b g p st) a c
  = (if face_visited (faces g) a c
     then fm g a c * mu p (face_average st (sf1 b) a c)
                          (face_average st (sf2 b) a c)
     else muv st a c)
  /\ alphav (properties b g p st) a c
     = (if face_visited (faces g) a c
        then (if Qeq_bool (rho p (face_average st (sf1 b) a c)
                                 (face_average st (sf2 b) a c)) 0
              then None
              else Some (fm g a c
                         / rho p (face_average st (sf1 b) a c)
                                 (face_average st (sf2 b) a c)))
        else alphav st a c).
Proof.
  unfold properties.
  destruct (mark_interfaces_faces b fraction_refine
              (foreach g (property_cell b g p)
                 (foreach_face g (face_cell b g p) st))) as [M A].
  rewrite M, A. unfold foreach.
  destruct (fold_same_rest (property_cell b g p) (cells g)
              (property_cell_rest b g p)
              (foreach_face g (face_cell b g p) st)) as (E1 & E2 & _).
  rewrite E1, E2. unfold foreach_face.
  apply (face_loop b g p (faces g) st a c).
Qed.

(** X4.  Neither event depends on the order in which the grid hands out
    its cells and faces, nor on a cell or face being handed out more than
    once: two grids with the same cells, faces and metric factors give the
    same scalars and the same face fields. *)
Theorem loops_order_independent (b : build) (g g' : grid) (p : params)
  (i : Z) (st : state) :
  same_cells g g' -> same_faces g g' -> same_metric g g' ->
  (forall s c, val (tracer_advection b g i st) s c
               = val (tracer_advection b g' i st) s c)
  /\ (forall s c, val (properties b g p st) s c
                  = val (properties b g' p st) s c)
  /\ (forall a c, muv (properties b g p st) a c
                  = muv (properties b g' p st) a c)
  /\ (forall a c, alphav (properties b g p st) a c
                  = alphav (properties b g' p st) a c).
Proof.
  intros HC HF [Hcm Hfm].
  assert (V : forall c, visited (cells g) c = visited (cells g') c).
  { intro c. now apply visited_same. }
  assert (K : forall s c, val (corrector g i st) s c
                          = val (corrector g' i st) s c).
  { intros s c. destruct s;
      try (rewrite !corrector_other by discriminate; reflexivity).
    now rewrite !corrector_f1, V. }
  split; [| split; [| split]].
  - intros s c. unfold tracer_advection.
    rewrite !mark_interfaces_val, !smoothing_val, V, K.
    destruct (FILTERED b && visited (cells g') c); [| reflexivity].
    destruct s; try reflexivity; apply smear_ext; intro d; apply K.
  - intros s c. rewrite !properties_val_all, V.
    destruct (visited (cells g') c); [| reflexivity].
    unfold cell_values. now rewrite Hcm.
  - intros a c.
    rewrite (proj1 (properties_faces b g p st a c)),
      (proj1 (properties_faces b g' p st a c)).
    rewrite (face_visited_same (faces g) (faces g') a c HF), Hfm.
    reflexivity.
  - intros a c.
    rewrite (proj2 (properties_faces b g p st a c)),
      (proj2 (properties_faces b g' p st a c)).
    rewrite (face_visited_same (faces g) (faces g') a c HF), Hfm.
    reflexivity.
Qed.

Lemma loops_order_independent_witness :
  same_cells two_cell_grid shuffled_grid
  /\ same_faces two_cell_grid shuffled_grid
  /\ same_metric two_cell_grid shuffled_grid
  /\ val (properties filtered_2d two_cell_grid three_fluids
            (tracer_advection filtered_2d two_cell_grid 2 (uniform 0.5 0.3)))
       rhov origin
     = val (properties filtered_2d shuffled_grid three_fluids
              (tracer_advection filtered_2d two_cell_grid 2
                 (uniform 0.5 0.3)))
         rhov origin.
Proof.
  assert (HC : same_cells two_cell_grid shuffled_grid).
  { intro c. simpl. tauto. }
  assert (HF : same_faces two_cell_grid shuffled_grid).
  { intros a c. simpl. tauto. }
  assert (HM : same_metric two_cell_grid shuffled_grid).
  { split; reflexivity. }
  split; [exact HC |]. split; [exact HF |]. split; [exact HM |].
  exact (proj1 (proj2 (loops_order_independent filtered_2d two_cell_grid
                         shuffled_grid three_fluids 2
                         (tracer_advection filtered_2d two_cell_grid 2
                            (uniform 0.5 0.3)) HC HF HM)) rhov origin).
Defined.

(** ** The smearing *)

Lemma around_shift c i j k :
  (Z.abs i <= 1)%Z -> (Z.abs j <= 1)%Z -> (Z.abs k <= 1)%Z ->
  around c (shift c i j k).
Proof.
  intros Hi Hj Hk. unfold around, shift. simpl.
  replace (cx c + i - cx c)%Z with i by lia.
  replace (cy c + j - cy c)%Z with j by lia.
  replace (cz c + k - cz c)%Z with k by lia. auto.
Qed.

Lemma around_self c : around c c.
Proof. unfold around. rewrite !Z.sub_diag. simpl. lia. Qed.




Lemma smear_cell_rest b sf f c st : same_rest (smear_cell b sf f c st) st.
Proof. repeat split. Qed.

Lemma smoothing_rest b g st : same_rest (smoothing b g st) st.
Proof.
  destruct (FILTERED b) eqn:F.
  - rewrite smoothing_filtered by exact F. unfold foreach.
    destruct (fold_same_rest (smear_cell b sf2_ f2) (cells g)
                (smear_cell_rest b sf2_ f2)
                (fold_left (fun acc d => smear_cell b sf1_ f1 d acc)
                   (cells g) st)) as (A1 & A2 & A3 & A4).
    destruct (fold_same_rest (smear_cell b sf1_ f1) (cells g)
                (smear_cell_rest b sf1_ f1) st) as (B1 & B2 & B3 & B4).
    repeat split; congruence.
  - rewrite smoothing_unfiltered by exact F. repeat split.
Qed.

Lemma corrector_rest g i st : same_rest (corrector g i st) st.
Proof.
  unfold corrector. destruct (i >? 1)%Z.
  - apply repair_loop_rest.
  - repeat split.
Qed.

(** X6.  What [tracer_advection] leaves alone: the face fields; [f2] and
    the derived fields [rhov], [Gpd], [lambdapd] everywhere; every scalar
    in a cell the grid does not hand out; and, in a build without
    [FILTERED], the fields [sf1_] and [sf2_] as well. *)
Theorem tracer_advection_frame (b : build) (g : grid) (i : Z) (st : state) :
  muv (tracer_advection b g i st) = muv st
  /\ alphav (tracer_advection b g i st) = alphav st
  /\ (forall s c, s <> f1 -> s <> sf1_ -> s <> sf2_ ->
                  val (tracer_advection b g i st) s c = val st s c)
  /\ (forall s c, ~ In c (cells g) ->
                  val (tracer_advection b g i st) s c = val st s c)
  /\ (FILTERED b = false ->
      forall s c, s <> f1 ->
                  val (tracer_advection b g i st) s c = val st s c).
Proof.
  assert (V : forall s c,
             val (tracer_advection b g i st) s c
             = val (smoothing b g (corrector g i st)) s c).
  { intros s c. unfold tracer_advection. now rewrite mark_interfaces_val. }
  split; [| split; [| split; [| split]]].
  - unfold tracer_advection.
    rewrite (proj1 (mark_interfaces_faces b refine_bilinear _)).
    destruct (smoothing_rest b g (corrector g i st)) as (_ & E & _).
    destruct (corrector_rest g i st) as (_ & E' & _). congruence.
  - unfold tracer_advection.
    rewrite (proj2 (mark_interfaces_faces b refine_bilinear _)).
    destruct (smoothing_rest b g (corrector g i st)) as (E & _).
    destruct (corrector_rest g i st) as (E' & _). congruence.
  - intros s c N1 N2 N3. rewrite V, smoothing_val.
    rewrite corrector_other by exact N1.
    destruct (FILTERED b && visited (cells g) c); [| reflexivity].
    destruct s; try reflexivity; congruence.
  - intros s c N. rewrite V, smoothing_val.
    assert (X : visited (cells g) c = false).
    { apply not_true_is_false. intro T. now apply visited_In in T. }
    rewrite X, andb_false_r. destruct s;
      try (apply corrector_other; discriminate).
    rewrite corrector_f1, X, andb_false_r. reflexivity.
  - intros F s c N. rewrite V, smoothing_val, F. simpl.
    now apply corrector_other.
Qed.

Lemma tracer_advection_frame_witness :
  ~ In (Cell 5 0 0) (cells unit_grid)
  /\ val (tracer_advection filtered_2d unit_grid 2 (uniform 0.5 0.3))
       f1 (Cell 5 0 0) = 0.5
  /\ val (tracer_advection filtered_2d unit_grid 2 (uniform 0.5 0.3))
       f2 origin = 0.3.
Proof.
  assert (N : ~ In (Cell 5 0 0) (cells unit_grid)).
  { intros [H | []]. discriminate H. }
  pose proof (tracer_advection_frame filtered_2d unit_grid 2
                (uniform 0.5 0.3)) as (_ & _ & A & B & _).
  split; [exact N |]. split.
  - exact (B f1 (Cell 5 0 0) N).
  - apply (A f2 origin); discriminate.
Defined.

(** ** The refinement marks *)

Lemma mark_interfaces_marks b r st s :
  prolongation (mark_interfaces b r st) s
  = (if TREE b && (scalar_eqb (sf1 b) s || scalar_eqb (sf2 b) s)
     then r else prolongation st s)
  /\ dirty (mark_interfaces b r st) s
     = (if TREE b && (scalar_eqb (sf1 b) s || scalar_eqb (sf2 b) s)
        then true else dirty st s).
Proof.
  unfold mark_interfaces, smearInterfaces. destruct (TREE b); simpl.
  - destruct (scalar_eqb (sf2 b) s), (scalar_eqb (sf1 b) s);
      split; reflexivity.
  - split; reflexivity.
Qed.

Lemma face_loop_marks b g p (l : list (axis * cell)) :
  forall st,
    let st' := fold_left
                 (fun acc ac => face_cell b g p (fst ac) (snd ac) acc) l st in
    prolongation st' = prolongation st /\ dirty st' = dirty st.
Proof.
  induction l as [| a l IH]; intro st; simpl.
  - split; reflexivity.
  - destruct (IH (face_cell b g p (fst a) (snd a) st)) as [E1 E2].
    rewrite E1, E2. split; reflexivity.
Qed.

Lemma tracer_advection_marks b g i st s :
  prolongation (tracer_advection b g i st) s
  = (if TREE b && (scalar_eqb (sf1 b) s || scalar_eqb (sf2 b) s)
     then refine_bilinear else prolongation st s)
  /\ dirty (tracer_advection b g i st) s
     = (if TREE b && (scalar_eqb (sf1 b) s || scalar_eqb (sf2 b) s)
        then true else dirty st s).
Proof.
  unfold tracer_advection.
  destruct (mark_interfaces_marks b refine_bilinear
              (smoothing b g (corrector g i st)) s) as [P D].
  rewrite P, D.
  destruct (smoothing_rest b g (corrector g i st)) as (_ & _ & E1 & E2).
  destruct (corrector_rest g i st) as (_ & _ & E3 & E4).
  rewrite E1, E2, E3, E4. split; reflexivity.
Qed.

Lemma properties_marks b g p st s :
  prolongation (properties b g p st) s
  = (if TREE b && (scalar_eqb (sf1 b) s || scalar_eqb (sf2 b) s)
     then fraction_refine else prolongation st s)
  /\ dirty (properties b g p st) s
     = (if TREE b && (scalar_eqb (sf1 b) s || scalar_eqb (sf2 b) s)
        then true else dirty st s).
Proof.
  unfold properties.
  destruct (mark_interfaces_marks b fraction_refine
              (foreach g (property_cell b g p)
                 (foreach_face g (face_cell b g p) st)) s) as [P D].
  rewrite P, D. unfold foreach.
  destruct (fold_same_rest (property_cell b g p) (cells g)
              (property_cell_rest b g p)
              (foreach_face g (face_cell b g p) st)) as (_ & _ & E1 & E2).
  rewrite E1, E2. unfold foreach_face.
  destruct (face_loop_marks b g p (faces g) st) as [E3 E4].
  rewrite E3, E4. split; reflexivity.
Qed.

(** X7.  In a build with [TREE], [tracer_advection] gives the smeared
    interfaces (the raw fractions themselves when [FILTERED] is off) the
    rule [refine_bilinear] and flags them dirty; [properties], run after
    it, replaces the rule by [fraction_refine] and leaves them dirty.  The
    marks of every other scalar, and all marks in a build without [TREE],
    stay as they were. *)
Theorem refinement_marks (b : build) (g : grid) (p : params) (i : Z)
  (st : state) (s : scalar) :
  (TREE b = true -> s = sf1 b \/ s = sf2 b ->
     prolongation (tracer_advection b g i st) s = refine_bilinear
     /\ dirty (tracer_advection b g i st) s = true
     /\ prolongation (properties b g p (tracer_advection b g i st)) s
        = fraction_refine
     /\ dirty (properties b g p (tracer_advection b g i st)) s = true)
  /\ (TREE b = false \/ (s <> sf1 b /\ s <> sf2 b) ->
        prolongation (properties b g p (tracer_advection b g i st)) s
        = prolongation st s
        /\ dirty (properties b g p (tracer_advection b g i st)) s
           = dirty st s).
Proof.
  destruct (tracer_advection_marks b g i st s) as [P1 D1].
  destruct (properties_marks b g p (tracer_advection b g i st) s)
    as [P2 D2].
  rewrite P2, D2, !P1, !D1. split.
  - intros T H. rewrite T. simpl.
    assert (X : scalar_eqb (sf1 b) s || scalar_eqb (sf2 b) s = true).
    { apply orb_true_iff.
      destruct H as [-> | ->]; [left | right]; apply scalar_eqb_refl. }
    rewrite X. repeat split.
  - intros [T | [N1 N2]].
    + rewrite T. simpl. split; reflexivity.
    + assert (X : scalar_eqb (sf1 b) s || scalar_eqb (sf2 b) s = false).
      { apply orb_false_iff. split; apply not_true_is_false; intro E;
          apply scalar_eqb_eq in E; congruence. }
      rewrite X, !andb_false_r. split; reflexivity.
Qed.

Lemma refinement_marks_witness :
  TREE tree_2d = true /\ f1 = sf1 tree_2d
  /\ prolongation (tracer_advection tree_2d unit_grid 0 (uniform 1 0)) f1
     = refine_bilinear
  /\ prolongation (properties tree_2d unit_grid three_fluids
                     (tracer_advection tree_2d unit_grid 0 (uniform 1 0))) f1
     = fraction_refine
  /\ TREE filtered_tree_3d = true
  /\ (f1 <> sf1 filtered_tree_3d /\ f1 <> sf2 filtered_tree_3d)
  /\ prolongation (properties filtered_tree_3d unit_grid three_fluids
                     (tracer_advection filtered_tree_3d unit_grid 0
                        (uniform 1 0))) f1
     = refine_default.
Proof.
  assert (T : TREE tree_2d = true) by reflexivity.
  assert (E : f1 = sf1 tree_2d) by reflexivity.
  assert (T' : TREE filtered_tree_3d = true) by reflexivity.
  assert (N : f1 <> sf1 filtered_tree_3d /\ f1 <> sf2 filtered_tree_3d)
    by (split; discriminate).
  pose proof (proj1 (refinement_marks tree_2d unit_grid three_fluids 0
                       (uniform 1 0) f1) T (or_introl E))
    as (A1 & _ & A3 & _).
  pose proof (proj2 (refinement_marks filtered_tree_3d unit_grid three_fluids
                       0 (uniform 1 0) f1) (or_intror N)) as (B1 & _).
  split; [exact T |]. split; [exact E |]. split; [exact A1 |].
  split; [exact A3 |]. split; [exact T' |]. split; [exact N |]. exact B1.
Defined.

(** ** The mixing laws *)

Lemma clamp_cases (x : double) :
  (x < 0 /\ clamp x 0 1 = 0) \/ (1 < x /\ clamp x 0 1 = 1)
  \/ (0 <= x <= 1 /\ clamp x 0 1 = x).
Proof.
  unfold clamp. destruct (Qltb x 0) eqn:L.
  - left. split; [now apply Qltb_lt | reflexivity].
  - destruct (Qgtb x 1) eqn:U.
    + right; left. split; [now apply Qltb_lt | reflexivity].
    + right; right. split; [split; now apply Qltb_ge | reflexivity].
Qed.

Lemma weight_sum_at_most_two (x y : double) : weight_sum x y <= 2.
Proof.
  unfold weight_sum.
  destruct (clamp_cases (phaseA x y)) as [[A ->] | [[A ->] | [[A0 A1] ->]]];
  destruct (clamp_cases (phaseB x y)) as [[B ->] | [[B ->] | [[B0 B1] ->]]];
  destruct (clamp_cases (phaseC x)) as [[C ->] | [[C ->] | [[C0 C1] ->]]];
  unfold phaseA, phaseB, phaseC in *; nra.
Qed.

(** X8.  Clamping the three phase fractions one by one does not normalise
    them: out of range two of the three weights of the mixing laws can be
    1 at once, so that their sum is 2 (at [f1 = 2], [f2 = 0.5] the density
    is [rho1 + rho2]); the sum never exceeds 2, since the three unclamped
    fractions are positive together only for fractions in range. *)
Theorem mixing_weights_at_most_two :
  (forall x y, weight_sum x y <= 2)
  /\ weight_sum 2 0.5 == 2
  /\ (forall p, rho p 2 0.5 == rho1 p + rho2 p).
Proof.
  split; [exact weight_sum_at_most_two |]. split; [reflexivity |].
  intro p. unfold rho.
  assert (EA : clamp (phaseA 2 0.5) 0 1 == 1) by reflexivity.
  assert (EB : clamp (phaseB 2 0.5) 0 1 == 1) by reflexivity.
  assert (EC : clamp (phaseC 2) 0 1 == 0) by reflexivity.
  rewrite EA, EB, EC. ring.
Qed.

(** ** The evaluator *)

Lemma gate_closed p w : 1 <= TOLelastic p -> 0 <= w <= 1 ->
  Qgtb w (TOLelastic p) = false.
Proof.
  intros T [_ W]. unfold Qgtb. apply Qltb_ge.
  now apply Qle_trans with 1.
Qed.

Lemma gate_open p w : TOLelastic p < 0 -> 0 <= w <= 1 ->
  Qgtb w (TOLelastic p) = true.
Proof.
  intros T [W _]. unfold Qgtb. apply Qltb_lt.
  now apply Qlt_le_trans with 0.
Qed.

Lemma fractions_unit b c st :
  0 <= wA b c st <= 1 /\ 0 <= wB b c st <= 1 /\ 0 <= wC b c st <= 1.
Proof. unfold wA, wB, wC. repeat split; apply clamp_unit. Qed.

(** X12.  The two extremes of the threshold.  With [TOLelastic >= 1] no
    phase ever passes the test, since a clamped fraction is at most 1: the
    elastic modulus and the relaxation time are 0 in every cell of the
    grid.  With [TOLelastic < 0] every phase always passes it: the two
    fields are the plain weighted sums of the constants. *)
Theorem threshold_extremes (b : build) (g : grid) (p : params) (st : state)
  (c : cell) :
  In c (cells g) ->
  (1 <= TOLelastic p ->
     val (properties b g p st) Gpd c = 0
     /\ val (properties b g p st) lambdapd c = 0)
  /\ (TOLelastic p < 0 ->
        val (properties b g p st) Gpd c
        == ungated (G1 p) (G2 p) (G3 p) (wA b c st) (wB b c st) (wC b c st)
        /\ val (properties b g p st) lambdapd c
           == ungated (lambda1 p) (lambda2 p) (lambda3 p)
                (wA b c st) (wB b c st) (wC b c st)).
Proof.
  intro Hc. destruct (fractions_unit b c st) as (A & B & C).
  rewrite !properties_val by exact Hc. unfold cell_values, accumulate.
  split; intro T.
  - rewrite !(gate_closed p _ T A), !(gate_closed p _ T B),
      !(gate_closed p _ T C). split; reflexivity.
  - rewrite !(gate_open p _ T A), !(gate_open p _ T B),
      !(gate_open p _ T C). unfold ungated. split; ring.
Qed.

Lemma threshold_extremes_witness :
  In origin (cells unit_grid) /\ 1 <= TOLelastic closed_threshold
  /\ val (properties plain_2d unit_grid closed_threshold (uniform 0 0))
       Gpd origin = 0.
Proof.
  assert (Hc : In origin (cells unit_grid)) by (left; reflexivity).
  assert (T : 1 <= TOLelastic closed_threshold) by discriminate.
  split; [exact Hc |]. split; [exact T |].
  exact (proj1 (proj1 (threshold_extremes plain_2d unit_grid closed_threshold
                         (uniform 0 0) origin Hc) T)).
Defined.

Lemma share_bounds p K w : 0 <= K -> 0 <= w -> 0 <= share p K w <= K * w.
Proof.
  intros HK Hw. unfold share.
  assert (P : 0 <= K * w) by now apply Qmult_le_0_compat.
  destruct (Qgtb w (TOLelastic p)); split;
    auto using Qle_refl.
Qed.

(** X13.  With non-negative constants the threshold tests can only remove
    contributions: in every cell of the grid the elastic modulus and the
    relaxation time are non-negative and at most the plain weighted sums
    of the constants. *)
Theorem gating_only_removes (b : build) (g : grid) (p : params) (st : state)
  (c : cell) :
  In c (cells g) ->
  (0 <= G1 p -> 0 <= G2 p -> 0 <= G3 p ->
     0 <= val (properties b g p st) Gpd c
       <= ungated (G1 p) (G2 p) (G3 p) (wA b c st) (wB b c st) (wC b c st))
  /\ (0 <= lambda1 p -> 0 <= lambda2 p -> 0 <= lambda3 p ->
        0 <= val (properties b g p st) lambdapd c
          <= ungated (lambda1 p) (lambda2 p) (lambda3 p)
               (wA b c st) (wB b c st) (wC b c st)).
Proof.
  intro Hc. destruct (fractions_unit b c st) as ([A _] & [B _] & [C _]).
  rewrite !properties_val by exact Hc. unfold cell_values, ungated.
  rewrite !accumulate_shares. split; intros H1 H2 H3.
  - destruct (share_bounds p (G1 p) (wA b c st) H1 A) as [? ?].
    destruct (share_bounds p (G2 p) (wB b c st) H2 B) as [? ?].
    destruct (share_bounds p (G3 p) (wC b c st) H3 C) as [? ?].
    split; lra.
  - destruct (share_bounds p (lambda1 p) (wA b c st) H1 A) as [? ?].
    destruct (share_bounds p (lambda2 p) (wB b c st) H2 B) as [? ?].
    destruct (share_bounds p (lambda3 p) (wC b c st) H3 C) as [? ?].
    split; lra.
Qed.

Lemma gating_only_removes_witness :
  In origin (cells unit_grid)
  /\ 0 <= G1 three_fluids /\ 0 <= G2 three_fluids /\ 0 <= G3 three_fluids
  /\ 0 <= val (properties plain_2d unit_grid three_fluids (uniform 0.05 0))
            Gpd origin
       <= ungated (G1 three_fluids) (G2 three_fluids) (G3 three_fluids)
            (wA plain_2d origin (uniform 0.05 0))
            (wB plain_2d origin (uniform 0.05 0))
            (wC plain_2d origin (uniform 0.05 0)).
Proof.
  assert (Hc : In origin (cells unit_grid)) by (left; reflexivity).
  assert (H1 : 0 <= G1 three_fluids) by discriminate.
  assert (H2 : 0 <= G2 three_fluids) by discriminate.
  assert (H3 : 0 <= G3 three_fluids) by discriminate.
  split; [exact Hc |]. split; [exact H1 |]. split; [exact H2 |].
  split; [exact H3 |].
  exact (proj1 (gating_only_removes plain_2d unit_grid three_fluids
                  (uniform 0.05 0) origin Hc) H1 H2 H3).
Defined.

Lemma cell_values_fractions b g p c st st' s :
  val st (sf1 b) c = val st' (sf1 b) c ->
  val st (sf2 b) c = val st' (sf2 b) c ->
  s = rhov \/ s = Gpd \/ s = lambdapd ->
  cell_values b g p c st s = cell_values b g p c st' s.
Proof.
  intros E1 E2 H. unfold cell_values, wA, wB, wC. rewrite E1, E2.
  destruct H as [-> | [-> | ->]]; reflexivity.
Qed.

Lemma properties_fractions b g p st c :
  val (properties b g p st) (sf1 b) c = val st (sf1 b) c
  /\ val (properties b g p st) (sf2 b) c = val st (sf2 b) c.
Proof.
  rewrite !properties_val_all.
  destruct (visited (cells g) c); [| split; reflexivity].
  unfold cell_values, sf1, sf2. destruct (FILTERED b); split; reflexivity.
Qed.

(** X14.  The derived fields have no history: in a cell of the grid the
    density, elastic modulus and relaxation time after [properties] depend
    on the two (smeared) fractions of that cell alone, not on what the
    derived fields, or any other cell, held before. *)
Theorem properties_no_history (b : build) (g : grid) (p : params)
  (st st' : state) (c : cell) (s : scalar) :
  In c (cells g) ->
  val st (sf1 b) c = val st' (sf1 b) c ->
  val st (sf2 b) c = val st' (sf2 b) c ->
  s = rhov \/ s = Gpd \/ s = lambdapd ->
  val (properties b g p st) s c = val (properties b g p st') s c.
Proof.
  intros Hc E1 E2 H. rewrite !properties_val by exact Hc.
  now apply cell_values_fractions.
Qed.

Lemma properties_no_history_witness :
  In origin (cells unit_grid)
  /\ val (uniform 0.5 0.3) (sf1 plain_2d) origin
     = val (properties plain_2d unit_grid elastic_C (uniform 0.5 0.3))
         (sf1 plain_2d) origin
  /\ val (uniform 0.5 0.3) (sf2 plain_2d) origin
     = val (properties plain_2d unit_grid elastic_C (uniform 0.5 0.3))
         (sf2 plain_2d) origin
  /\ val (properties plain_2d unit_grid three_fluids (uniform 0.5 0.3))
       Gpd origin
     = val (properties plain_2d unit_grid three_fluids
              (properties plain_2d unit_grid elastic_C (uniform 0.5 0.3)))
         Gpd origin.
Proof.
  assert (Hc : In origin (cells unit_grid)) by (left; reflexivity).
  assert (E1 : val (uniform 0.5 0.3) (sf1 plain_2d) origin
               = val (properties plain_2d unit_grid elastic_C
                        (uniform 0.5 0.3)) (sf1 plain_2d) origin)
    by reflexivity.
  assert (E2 : val (uniform 0.5 0.3) (sf2 plain_2d) origin
               = val (properties plain_2d unit_grid elastic_C
                        (uniform 0.5 0.3)) (sf2 plain_2d) origin)
    by reflexivity.
  split; [exact Hc |]. split; [exact E1 |]. split; [exact E2 |].
  exact (properties_no_history plain_2d unit_grid three_fluids
           (uniform 0.5 0.3)
           (properties plain_2d unit_grid elastic_C (uniform 0.5 0.3))
           origin Gpd Hc E1 E2 (or_intror (or_introl eq_refl))).
Defined.

(** X15.  [properties] is idempotent: it reads only the fractions, which
    it does not write, so running it a second time changes no scalar and
    no face field. *)
Theorem properties_idempotent (b : build) (g : grid) (p : params)
  (st : state) :
  (forall s c, val (properties b g p (properties b g p st)) s c
               = val (properties b g p st) s c)
  /\ (forall a c, muv (properties b g p (properties b g p st)) a c
                  = muv (properties b g p st) a c)
  /\ (forall a c, alphav (properties b g p (properties b g p st)) a c
                  = alphav (properties b g p st) a c).
Proof.
  assert (F : forall a c s, s = sf1 b \/ s = sf2 b ->
                face_average (properties b g p st) s a c
                = face_average st s a c).
  { intros a c s H. unfold face_average.
    destruct H as [-> | ->].
    - now rewrite !(proj1 (properties_fractions b g p st _)).
    - now rewrite !(proj2 (properties_fractions b g p st _)). }
  split; [| split].
  - intros s c. rewrite (properties_val_all b g p (properties b g p st)).
    destruct (visited (cells g) c) eqn:V; [| reflexivity].
    rewrite (properties_val_all b g p st), V.
    destruct (properties_fractions b g p st c) as [E1 E2].
    unfold cell_values, wA, wB, wC. rewrite E1, E2.
    destruct s; try reflexivity;
      rewrite properties_val_all, V; reflexivity.
  - intros a c.
    rewrite (proj1 (properties_faces b g p (properties b g p st) a c)).
    rewrite (proj1 (properties_faces b g p st a c)).
    rewrite !F by auto.
    destruct (face_visited (faces g) a c); reflexivity.
  - intros a c.
    rewrite (proj2 (properties_faces b g p (properties b g p st) a c)).
    rewrite (proj2 (properties_faces b g p st a c)).
    rewrite !F by auto.
    destruct (face_visited (faces g) a c); reflexivity.
Qed.

(** X16.  What [properties] leaves alone: the fractions [f1], [f2] and
    their smeared copies everywhere; every scalar in a cell the grid does
    not hand out; both face fields on a face the grid does not hand out. *)
Theorem properties_frame (b : build) (g : grid) (p : params) (st : state) :
  (forall s c, s <> rhov -> s <> Gpd -> s <> lambdapd ->
               val (properties b g p st) s c = val st s c)
  /\ (forall s c, ~ In c (cells g) ->
                  val (properties b g p st) s c = val st s c)
  /\ (forall a c, ~ In (a, c) (faces g) ->
                  muv (properties b g p st) a c = muv st a c
                  /\ alphav (properties b g p st) a c = alphav st a c).
Proof.
  split; [| split].
  - intros s c N1 N2 N3. rewrite properties_val_all.
    destruct (visited (cells g) c); [| reflexivity].
    unfold cell_values. destruct s; try reflexivity; congruence.
  - intros s c N. rewrite properties_val_all.
    replace (visited (cells g) c) with false; [reflexivity |].
    symmetry. apply not_true_is_false. intro T. now apply visited_In in T.
  - intros a c N.
    assert (X : face_visited (faces g) a c = false).
    { apply not_true_is_false. intro T. now apply face_visited_iff in T. }
    rewrite (proj1 (properties_faces b g p st a c)),
      (proj2 (properties_faces b g p st a c)), X.
    split; reflexivity.
Qed.

Lemma properties_frame_witness :
  ~ In (ax_z, origin) (faces unit_grid)
  /\ muv (properties plain_2d unit_grid three_fluids (uniform 0.5 0.3))
       ax_z origin = 0
  /\ val (properties plain_2d unit_grid three_fluids (uniform 0.5 0.3))
       f1 origin = 0.5.
Proof.
  assert (N : ~ In (ax_z, origin) (faces unit_grid)).
  { intros [H | [H | []]]; discriminate H. }
  pose proof (properties_frame plain_2d unit_grid three_fluids
                (uniform 0.5 0.3)) as (A & _ & C).
  split; [exact N |]. split.
  - exact (proj1 (C ax_z origin N)).
  - apply (A f1 origin); discriminate.
Defined.

Lemma share_proper p K w w' : w == w' -> share p K w == share p K w'.
Proof.
  intro E. unfold share. rewrite (Qgtb_proper _ _ E _ _ (Qeq_refl _)).
  destruct (Qgtb w' (TOLelastic p)); [now rewrite E | reflexivity].
Qed.

Lemma share_zero p K w : w == 0 -> share p K w == 0.
Proof.
  intro E. unfold share. destruct (Qgtb w (TOLelastic p));
    [rewrite E; ring | reflexivity].
Qed.

Lemma weights_pure (x y : double) :
  (x == 0 ->
     clamp (phaseA x y) 0 1 == 0 /\ clamp (phaseB x y) 0 1 == 0
     /\ clamp (phaseC x) 0 1 == 1)
  /\ (x == 1 -> y == 0 ->
        clamp (phaseA x y) 0 1 == 1 /\ clamp (phaseB x y) 0 1 == 0
        /\ clamp (phaseC x) 0 1 == 0)
  /\ (x == 1 -> y == 1 ->
        clamp (phaseA x y) 0 1 == 0 /\ clamp (phaseB x y) 0 1 == 1
        /\ clamp (phaseC x) 0 1 == 0).
Proof.
  unfold phaseA, phaseB, phaseC. split; [| split].
  - intro X. rewrite X.
    assert (E1 : 0 * (1 - y) == 0) by ring.
    assert (E2 : 0 * y == 0) by ring.
    rewrite E1, E2. repeat split.
  - intros X Y. rewrite X, Y. repeat split.
  - intros X Y. rewrite X, Y. repeat split.
Qed.

(** X17.  In a cell of the grid that holds one pure phase the evaluator
    returns the constants of that phase: the density is the metric factor
    times the density of the phase, and the elastic modulus and relaxation
    time are those of the phase when [TOLelastic < 1] and 0 otherwise.
    Phase C is [sf1 = 0] (whatever [sf2]), phase A is [sf1 = 1], [sf2 = 0],
    phase B is [sf1 = 1], [sf2 = 1]. *)
Theorem pure_phase_cells (b : build) (g : grid) (p : params) (st : state)
  (c : cell) :
  In c (cells g) ->
  (val st (sf1 b) c == 0 ->
     val (properties b g p st) rhov c == cm g c * rho3 p
     /\ val (properties b g p st) Gpd c == share p (G3 p) 1
     /\ val (properties b g p st) lambdapd c == share p (lambda3 p) 1)
  /\ (val st (sf1 b) c == 1 -> val st (sf2 b) c == 0 ->
        val (properties b g p st) rhov c == cm g c * rho1 p
        /\ val (properties b g p st) Gpd c == share p (G1 p) 1
        /\ val (properties b g p st) lambdapd c == share p (lambda1 p) 1)
  /\ (val st (sf1 b) c == 1 -> val st (sf2 b) c == 1 ->
        val (properties b g p st) rhov c == cm g c * rho2 p
        /\ val (properties b g p st) Gpd c == share p (G2 p) 1
        /\ val (properties b g p st) lambdapd c == share p (lambda2 p) 1)
  /\ (forall K, share p K 1 == if Qltb (TOLelastic p) 1 then K else 0).
Proof.
  intro Hc. rewrite !properties_val by exact Hc.
  unfold cell_values, rho, wA, wB, wC. rewrite !accumulate_shares.
  destruct (weights_pure (val st (sf1 b) c) (val st (sf2 b) c))
    as (PC & PA & PB).
  split; [| split; [| split]].
  - intro X. destruct (PC X) as (EA & EB & EC).
    rewrite !(share_zero p _ _ EA), !(share_zero p _ _ EB),
      !(share_proper p _ _ _ EC), EA, EB, EC.
    repeat split; ring.
  - intros X Y. destruct (PA X Y) as (EA & EB & EC).
    rewrite !(share_zero p _ _ EB), !(share_zero p _ _ EC),
      !(share_proper p _ _ _ EA), EA, EB, EC.
    repeat split; ring.
  - intros X Y. destruct (PB X Y) as (EA & EB & EC).
    rewrite !(share_zero p _ _ EA), !(share_zero p _ _ EC),
      !(share_proper p _ _ _ EB), EA, EB, EC.
    repeat split; ring.
  - intro K. unfold share, Qgtb.
    destruct (Qltb (TOLelastic p) 1); [ring | reflexivity].
Qed.

Lemma pure_phase_cells_witness :
  In origin (cells unit_grid)
  /\ val (uniform 1 1) (sf1 plain_2d) origin == 1
  /\ val (uniform 1 1) (sf2 plain_2d) origin == 1
  /\ val (properties plain_2d unit_grid three_fluids (uniform 1 1))
       rhov origin == cm unit_grid origin * rho2 three_fluids.
Proof.
  assert (Hc : In origin (cells unit_grid)) by (left; reflexivity).
  assert (X : val (uniform 1 1) (sf1 plain_2d) origin == 1) by reflexivity.
  assert (Y : val (uniform 1 1) (sf2 plain_2d) origin == 1) by reflexivity.
  pose proof (pure_phase_cells plain_2d unit_grid three_fluids (uniform 1 1)
                origin Hc) as (_ & _ & B & _).
  split; [exact Hc |]. split; [exact X |]. split; [exact Y |].
  exact (proj1 (B X Y)).
Defined.

(** X18.  How the two events of a step compose.  In a cell of the grid the
    evaluator reads the fractions that [tracer_advection] produced in the
    same step: without [FILTERED] the corrected [f1] and the raw [f2] of
    the cell, with [FILTERED] their stencils around the cell. *)
Theorem step_pipeline (b : build) (g : grid) (p : params) (i : Z)
  (st : state) (c : cell) :
  In c (cells g) ->
  (FILTERED b = false ->
     val (properties b g p (tracer_advection b g i st)) rhov c
     = cm g c * rho p (val (corrector g i st) f1 c) (val st f2 c))
  /\ (FILTERED b = true ->
        val (properties b g p (tracer_advection b g i st)) rhov c
        = cm g c * rho p (smear b (val (corrector g i st) f1) c)
                         (smear b (val st f2) c)).
Proof.
  intro Hc. rewrite properties_val by exact Hc.
  assert (V : visited (cells g) c = true) by now apply visited_In.
  unfold cell_values, tracer_advection. rewrite !mark_interfaces_val.
  rewrite !smoothing_val, V. unfold sf1, sf2. split; intro F; rewrite F.
  - simpl. now rewrite (corrector_other g i st f2) by discriminate.
  - simpl. f_equal. f_equal. apply smear_ext. intro d.
    apply corrector_other. discriminate.
Qed.

Lemma step_pipeline_witness :
  In origin (cells unit_grid) /\ FILTERED plain_2d = false
  /\ val (properties plain_2d unit_grid three_fluids
            (tracer_advection plain_2d unit_grid 2 (uniform 0.5 0.3)))
       rhov origin
     = cm unit_grid origin
       * rho three_fluids
           (val (corrector unit_grid 2 (uniform 0.5 0.3)) f1 origin)
           (val (uniform 0.5 0.3) f2 origin).
Proof.
  assert (Hc : In origin (cells unit_grid)) by (left; reflexivity).
  assert (F : FILTERED plain_2d = false) by reflexivity.
  split; [exact Hc |]. split; [exact F |].
  exact (proj1 (step_pipeline plain_2d unit_grid three_fluids 2
                  (uniform 0.5 0.3) origin Hc) F).
Defined.

(** ** Nesting of the two fractions *)

Lemma smear_monotone b (f h : field) (c : cell) :
  (forall d, around c d -> f d <= h d) -> smear b f c <= smear b h c.
Proof.
  intro H.
  assert (C : f c <= h c) by (apply H, around_self).
  assert (N : forall i j k, (Z.abs i <= 1)%Z -> (Z.abs j <= 1)%Z ->
                            (Z.abs k <= 1)%Z ->
                            f (shift c i j k) <= h (shift c i j k)).
  { intros i j k Hi Hj Hk. apply H. now apply around_shift. }
  unfold smear. destruct (dimension b <=? 2)%Z.
  - unfold smear2, Qdiv. change (/ 16) with (1 # 16).
    repeat match goal with
      | |- context [f (shift c ?i ?j ?k)] =>
          let u := fresh "u" in
          let v := fresh "v" in
          let Hv := fresh "Hv" in
          assert (Hv : f (shift c i j k) <= h (shift c i j k))
            by (apply N; simpl; lia);
          set (u := f (shift c i j k)) in *;
          set (v := h (shift c i j k)) in *; clearbody u v
      end.
    set (fc := f c) in *. set (hc := h c) in *. clearbody fc hc. lra.
  - unfold smear3, Qdiv. change (/ 64) with (1 # 64).
    repeat match goal with
      | |- context [f (shift c ?i ?j ?k)] =>
          let u := fresh "u" in
          let v := fresh "v" in
          let Hv := fresh "Hv" in
          assert (Hv : f (shift c i j k) <= h (shift c i j k))
            by (apply N; simpl; lia);
          set (u := f (shift c i j k)) in *;
          set (v := h (shift c i j k)) in *; clearbody u v
      end.
    set (fc := f c) in *. set (hc := h c) in *. clearbody fc hc. lra.
Qed.

(** X19.  [tracer_advection] keeps the nesting of the fractions: a cell in
    which [f2 <= f1] held before the event still has [f2 <= f1] after it,
    at every step index, and if the nesting held on the whole neighbourhood
    of a visited cell, the smeared fields of a build with [FILTERED] are
    nested there too, [sf2 <= sf1]. *)
Theorem nesting_kept (b : build) (g : grid) (i : Z) (st : state) (c : cell) :
  (val st f2 c <= val st f1 c ->
     val (tracer_advection b g i st) f2 c
     <= val (tracer_advection b g i st) f1 c)
  /\ (FILTERED b = true -> In c (cells g) ->
      (forall d, around c d -> val st f2 d <= val st f1 d) ->
      val (tracer_advection b g i st) sf2_ c
      <= val (tracer_advection b g i st) sf1_ c).
Proof.
  assert (K : forall d, val st f2 d <= val st f1 d ->
                        val (corrector g i st) f2 d
                        <= val (corrector g i st) f1 d).
  { intros d H. rewrite corrector_f1, corrector_other by discriminate.
    destruct ((i >? 1)%Z && visited (cells g) d && needs_repair st d);
      [apply Qle_refl | exact H]. }
  split.
  - intro H. rewrite !tracer_advection_raw by auto. now apply K.
  - intros F Hc H. apply visited_In in Hc. unfold tracer_advection.
    rewrite mark_interfaces_val, !smoothing_val, F, Hc. simpl.
    apply smear_monotone. intros d Hd. apply K. now apply H.
Qed.

Lemma nesting_kept_witness :
  val (uniform 0.5 0.3) f2 origin <= val (uniform 0.5 0.3) f1 origin
  /\ FILTERED filtered_2d = true /\ In origin (cells unit_grid)
  /\ (forall d, around origin d ->
                val (uniform 0.5 0.3) f2 d <= val (uniform 0.5 0.3) f1 d)
  /\ val (tracer_advection filtered_2d unit_grid 2 (uniform 0.5 0.3))
       f2 origin
     <= val (tracer_advection filtered_2d unit_grid 2 (uniform 0.5 0.3))
          f1 origin
  /\ val (tracer_advection filtered_2d unit_grid 2 (uniform 0.5 0.3))
       sf2_ origin
     <= val (tracer_advection filtered_2d unit_grid 2 (uniform 0.5 0.3))
          sf1_ origin.
Proof.
  assert (H0 : val (uniform 0.5 0.3) f2 origin
               <= val (uniform 0.5 0.3) f1 origin) by discriminate.
  assert (F : FILTERED filtered_2d = true) by reflexivity.
  assert (Hc : In origin (cells unit_grid)) by (left; reflexivity).
  assert (H : forall d, around origin d ->
                        val (uniform 0.5 0.3) f2 d
                        <= val (uniform 0.5 0.3) f1 d).
  { intros d _. discriminate. }
  pose proof (nesting_kept filtered_2d unit_grid 2 (uniform 0.5 0.3) origin)
    as [A B].
  split; [exact H0 |]. split; [exact F |]. split; [exact Hc |].
  split; [exact H |]. split; [exact (A H0) | exact (B F Hc H)].
Defined.

(** * The arithmetic as the machine rounds it *)










